(** * pz_mod_info_tool: the mod.info parser and the table model

    A shallow embedding of the decision-making parts of
    [pz_mod_info_tool.py]: the [mod.info] parser ([_read_mod_info]), the
    search filter ([_apply_filter]), the column sort ([_sort_by]) and the
    CSV export ([export_csv]).

    Conventions of the embedding.
    - A Python [str] is a [string]; a character is read as the code point
      0..255 it denotes, and [str.lower], [str.strip] and [int] are the
      Python functions restricted to that range.
    - A text file is the list of the lines its iterator yields; a file
      that is absent or cannot be opened is [None].
    - The mutable application object is a record threaded through each
      method; a method returns the exception it raised, if any, next to
      the state it left behind.
    - The Treeview is the list of its rows in display order, each row
      being its [values] tuple. *)

From Stdlib Require Import ZArith Ascii String Sorting.Sorted.
From stdpp Require Import base option list sorting strings gmap.

Open Scope string_scope.
Open Scope nat_scope.
Open Scope list_scope.

(** ** Python string primitives *)

Definition code (c : ascii) : N := N_of_ascii c.

(** [str.isspace] on one character, as used by [str.strip()] and [int]. *)
Definition is_space (c : ascii) : bool :=
  let n := code c in
  ((9 <=? n) && (n <=? 13) || (28 <=? n) && (n <=? 32)
   || (n =? 133) || (n =? 160))%N.

(** [str.lower] on one character. *)
Definition lower_char (c : ascii) : ascii :=
  let n := code c in
  if ((65 <=? n) && (n <=? 90) || (192 <=? n) && (n <=? 214)
      || (216 <=? n) && (n <=? 222))%N
  then ascii_of_N (n + 32) else c.

Fixpoint lower (s : string) : string :=
  match s with
  | "" => ""
  | String c r => String (lower_char c) (lower r)
  end.

Fixpoint lstrip (p : ascii -> bool) (s : string) : string :=
  match s with
  | "" => ""
  | String c r => if p c then lstrip p r else s
  end.

Fixpoint rstrip (p : ascii -> bool) (s : string) : string :=
  match s with
  | "" => ""
  | String c r =>
      match rstrip p r with
      | "" => if p c then "" else String c ""
      | r' => String c r'
      end
  end.

(** [s.strip()] removes every leading and trailing whitespace character;
    [s.strip(q)] with a one-character [q] removes every leading and
    trailing occurrence of [q]. *)
Definition strip (s : string) : string := rstrip is_space (lstrip is_space s).

Definition strip_char (q : ascii) (s : string) : string :=
  rstrip (Ascii.eqb q) (lstrip (Ascii.eqb q) s).

(** [s.startswith(p)]. *)
Definition startswith (s p : string) : bool := String.prefix p s.

(** [needle in hay]. *)
Fixpoint py_in (needle hay : string) : bool :=
  String.prefix needle hay ||
  match hay with
  | "" => false
  | String _ r => py_in needle r
  end.

(** [s.split(sep, 1)] for a one-character separator: one or two parts. *)
Fixpoint split1 (sep : ascii) (s : string) : list string :=
  match s with
  | "" => [""]
  | String c r =>
      if Ascii.eqb c sep then [""; r]
      else match split1 sep r with
           | a :: rest => String c a :: rest
           | [] => []
           end
  end.

(** [s.split(sep)] for a one-character separator: all the parts. *)
Fixpoint split (sep : ascii) (s : string) : list string :=
  match s with
  | "" => [""]
  | String c r =>
      if Ascii.eqb c sep then "" :: split sep r
      else match split sep r with
           | a :: rest => String c a :: rest
           | [] => []
           end
  end.

(** Truth value of a variable that holds [None] or a [str]. *)
Definition truthy (v : option string) : bool :=
  match v with
  | None | Some "" => false
  | Some _ => true
  end.

(** Truth value of a [str]. *)
Definition nonempty (s : string) : bool :=
  match s with "" => false | _ => true end.

(** ** [int(value)] on a [str] *)

Definition digit_val (c : ascii) : option Z :=
  let n := code c in
  if ((48 <=? n) && (n <=? 57))%N then Some (Z.of_N n - 48)%Z else None.

(** Digits after the first one: a single underscore may separate two
    digits. *)
Fixpoint int_tail (acc : Z) (s : string) : option Z :=
  match s with
  | "" => Some acc
  | String c r =>
      match digit_val c with
      | Some d => int_tail (10 * acc + d) r
      | None =>
          if Ascii.eqb c "_" then
            match r with
            | String c' r' =>
                match digit_val c' with
                | Some d => int_tail (10 * acc + d) r'
                | None => None
                end
            | "" => None
            end
          else None
      end
  end.

Definition int_digits (s : string) : option Z :=
  match s with
  | String c r =>
      match digit_val c with
      | Some d => int_tail d r
      | None => None
      end
  | "" => None
  end.

(** The whitespace [int] skips around the number.  It is not the
    whitespace of [str.strip()]: [int] maps the whitespace beyond ASCII to
    a blank and then skips the ASCII whitespace of C, tab to carriage
    return and the blank, so the separators U+001C to U+001F are not
    skipped. *)
Definition is_int_space (c : ascii) : bool :=
  let n := code c in
  ((9 <=? n) && (n <=? 13) || (n =? 32) || (n =? 133) || (n =? 160))%N.

(** The number of digits of a string: the interpreter refuses to convert
    more than 4300 of them. *)
Fixpoint count_digits (s : string) : N :=
  match s with
  | "" => 0%N
  | String c r =>
      match digit_val c with
      | Some _ => N.succ (count_digits r)
      | None => count_digits r
      end
  end.

(** [int(s)]: the whitespace around the number is skipped, one sign is
    allowed, and [None] stands for [ValueError]. *)
Definition py_int (s : string) : option Z :=
  let t := rstrip is_int_space (lstrip is_int_space s) in
  if (4300 <? count_digits t)%N then None
  else
    match t with
    | String "-" r => Z.opp <$> int_digits r
    | String "+" r => int_digits r
    | _ => int_digits t
    end.

(** ** The parser: [_read_mod_info] *)

(** The double-quote character. *)
Definition dquote : ascii := "034"%char.

(** The test that makes the loop [continue] before any parsing: the
    stripped line is empty, has no [=], or starts with [#] or [//]. *)
Definition skipped (line : string) : bool :=
  negb (nonempty line) || negb (py_in "=" line)
  || startswith line "#" || startswith line "//".

(** [key.strip().lower()], and [value.strip()] followed by a [strip] of
    the double quote and a [strip] of the single quote. *)
Definition clean_key (key : string) : string := lower (strip key).

Definition clean_value (value : string) : string :=
  strip_char "'" (strip_char dquote (strip value)).

(** The first part of [value] split on the semicolon, stripped. *)
Definition first_segment (value : string) : string :=
  strip (hd "" (split ";" value)).

(** The two assignments of the loop body, on the cleaned key and value. *)
Definition assign (key value : string) (name modid : option string)
  : option string * option string :=
  if String.eqb key "name" && negb (truthy name) && nonempty value
  then (Some value, modid)
  else if String.eqb key "id" && negb (truthy modid) && nonempty value
  then (name, Some (first_segment value))
  else (name, modid).

(** The [for line_num, raw_line in enumerate(f, 1)] loop.  [f] is what
    the file iterator still has to yield; the result carries what it has
    not yielded when the loop ends.  The unpacking of the split of
    [line] on its first equals sign into two names raises [ValueError] unless there are two parts, and
    the handler continues with the next line. *)
Fixpoint read_lines (line_num : nat) (f : list string)
    (name modid : option string)
  : option string * option string * list string :=
  match f with
  | [] => (name, modid, [])
  | raw_line :: f' =>
      if (500 <? line_num)%nat then (name, modid, f')
      else
        let line := strip raw_line in
        if skipped line then read_lines (S line_num) f' name modid
        else
          match split1 "=" line with
          | [key; value] =>
              let '(name', modid') :=
                assign (clean_key key) (clean_value value) name modid in
              if truthy name' && truthy modid' then (name', modid', f')
              else read_lines (S line_num) f' name' modid'
          | _ => read_lines (S line_num) f' name modid
          end
  end.

(** A parsed mod: the dictionary with keys [name], [modid] and
    [workshopid]. *)
Record mod_info := Mod {
  name : string;
  modid : string;
  workshopid : string
}.

(** [_read_mod_info].  [file] is what [find_modinfo] and [open] hand to
    the parser: the lines of the [mod.info] found under the mod directory,
    or [None] when there is no such file or it cannot be opened. *)
Definition _read_mod_info (file : option (list string)) (wid : string)
  : option mod_info :=
  match file with
  | None => None
  | Some f =>
      let '(n, m, _) := read_lines 1 f None None in
      if truthy n && truthy m
      then Some (Mod (default "" n) (default "" m) wid)
      else None
  end.

(** ** The table: filter, sort, export *)

(** A Treeview row: the [values] tuple (name, modid, workshopid). *)
Definition row : Type := string * string * string.

Definition row_of (m : mod_info) : row :=
  (name m, modid m, workshopid m).

(** [values[column_index]] for the three columns. *)
Definition column (column_index : nat) (values : row) : string :=
  match column_index, values with
  | 0, (a, _, _) => a
  | 1, (_, b, _) => b
  | _, (_, _, c) => c
  end.

(** The application object: only the fields the table logic reads or
    writes. *)
Record ModInfoApp := App {
  mods : list mod_info;
  search_var : string;
  tree : list row;
  _sort_dir : gmap string bool
}.

(** The condition of the filter loop in [_apply_filter]. *)
Definition shown (query : string) (m : mod_info) : bool :=
  negb (nonempty query)
  || py_in query (lower (name m))
  || py_in query (lower (modid m))
  || py_in query (lower (workshopid m)).

(** The loop [for mod in self.mods: if ...: filtered_rows.append(...)]. *)
Fixpoint filter_loop (query : string) (l : list mod_info)
    (filtered_rows : list row) : list row :=
  match l with
  | [] => filtered_rows
  | m :: l' =>
      filter_loop query l'
        (if shown query m then filtered_rows ++ [row_of m]
         else filtered_rows)
  end.

(** [query = self.search_var.get().lower().strip()]. *)
Definition query_of (text : string) : string := strip (lower text).

(** [_apply_filter]: the tree is emptied and refilled with the rows of
    the mods that pass the filter. *)
Definition _apply_filter (st : ModInfoApp) : ModInfoApp :=
  let query := query_of (search_var st) in
  App (mods st) (search_var st) (filter_loop query (mods st) [])
      (_sort_dir st).

(** *** Sorting *)

(** What [sort_key] returns: an [int] or a [str]. *)
Inductive key :=
  | KInt (z : Z)
  | KStr (s : string).

(** [a < b] on two keys.  Two [int]s compare as integers, two [str]s
    lexicographically by code point; an [int] and a [str] do not compare:
    [None] stands for the [TypeError] that [<] raises. *)
Definition key_lt (a b : key) : option bool :=
  match a, b with
  | KInt x, KInt y => Some (x <? y)%Z
  | KStr s, KStr t => Some (String.ltb s t)
  | _, _ => None
  end.

(** [list.sort(key=..., reverse=...)].  The sort is stable and uses only
    [<] on the keys, so on keys that all compare its result is the one of
    any stable sort, here insertion; it raises as soon as two keys do not
    compare, and with an [int] key and a [str] key in the list every
    comparison sort meets such a pair.  With [reverse] the list is
    reversed, sorted and reversed again, which keeps equal keys in their
    original order. *)
Section list_sort.
Context {A : Type} (key_of : A -> key).

Fixpoint insert (x : A) (l : list A) : option (list A) :=
  match l with
  | [] => Some [x]
  | y :: l' =>
      b ← key_lt (key_of y) (key_of x);
      if b : bool then l'' ← insert x l'; Some (y :: l'')
      else Some (x :: l)
  end.

Fixpoint sort_asc (l : list A) : option (list A) :=
  match l with
  | [] => Some []
  | x :: l' => s ← sort_asc l'; insert x s
  end.

Definition list_sort (reverse : bool) (l : list A) : option (list A) :=
  if reverse then @List.rev A <$> sort_asc (List.rev l) else sort_asc l.
End list_sort.

(** The dictionary [column_indices]. *)
Definition column_indices : gmap string nat :=
  <["Name" := 0]> (<["ModID" := 1]> (<["WorkshopID" := 2]> ∅)).

(** The nested function [sort_key], on the values of the item. *)
Definition sort_key (column_index : nat) (values : row) : key :=
  let value := column column_index values in
  if (column_index =? 2)%nat then
    match py_int value with
    | Some z => KInt z
    | None => KStr (lower value)
    end
  else KStr (lower value).

Inductive exn := KeyError | TypeError.

(** [_sort_by]: the exception raised, if any, and the application
    afterwards.  Every write to the application comes after the sort, so
    an exception leaves it as it was. *)
Definition _sort_by (col : string) (st : ModInfoApp)
  : option exn * ModInfoApp :=
  let items := tree st in
  match items with
  | [] => (None, st)
  | _ :: _ =>
      match column_indices !! col with
      | None => (Some KeyError, st)
      | Some column_index =>
          let reverse_sort := default false (_sort_dir st !! col) in
          match list_sort (sort_key column_index) reverse_sort items with
          | None => (Some TypeError, st)
          | Some items' =>
              (None,
               App (mods st) (search_var st) items'
                   (<[col := negb reverse_sort]> (_sort_dir st)))
          end
      end
  end.

(** *** Export *)

Definition csv_header : list string := ["Name"; "ModID"; "WorkshopID"].

(** The condition of the list comprehension in [export_csv]. *)
Definition exported (query : string) (m : mod_info) : bool :=
  negb (nonempty query)
  || py_in query (lower (name m))
  || py_in query (lower (modid m))
  || py_in query (lower (workshopid m)).

(** The exception that [open] or the CSV writer raises. *)
Inductive export_error :=
  | WritePermissionError
  | WriteOSError
  | WriteOtherError.

(** How the writing of the file goes: it is written in full, [open]
    raises, or the writer raises once it has taken [k] rows, the header
    counted. *)
Inductive export_io :=
  | Written
  | OpenFails (e : export_error)
  | WriteFails (e : export_error) (k : nat).

(** [export_csv]: the rows the CSV writer took, or [None] when no file is
    opened (no mods, the save dialog was cancelled and [file_path] is
    empty, or [open] raised). *)
Definition export_csv (file_path : string) (io : export_io)
    (st : ModInfoApp) : option (list (list string)) :=
  match mods st with
  | [] => None
  | _ :: _ =>
      if negb (nonempty file_path) then None
      else
        let query := strip (lower (search_var st)) in
        let filtered_mods := List.filter (exported query) (mods st) in
        let rows :=
          csv_header ::
          map (λ m, [name m; modid m; workshopid m]) filtered_mods in
        match io with
        | Written => Some rows
        | OpenFails _ => None
        | WriteFails _ k => Some (take k rows)
        end
  end.

(** ** Specification vocabulary *)

(** Every character of [s] satisfies [p]. *)
Fixpoint all_chars (p : ascii -> bool) (s : string) : bool :=
  match s with
  | "" => true
  | String c r => p c && all_chars p r
  end.

Definition first_char (s : string) : option ascii :=
  match s with
  | "" => None
  | String c _ => Some c
  end.

Fixpoint last_char (s : string) : option ascii :=
  match s with
  | "" => None
  | String c "" => Some c
  | String _ r => last_char r
  end.

(** [t] is [s] without its leading and trailing [p]-characters: what was
    removed consists of [p]-characters only, and [t] neither starts nor
    ends with one. *)
Definition trimmed (p : ascii -> bool) (s t : string) : Prop :=
  ∃ pre post,
    s = pre +:+ t +:+ post
    ∧ all_chars p pre = true ∧ all_chars p post = true
    ∧ (∀ c, first_char t = Some c → p c = false)
    ∧ (∀ c, last_char t = Some c → p c = false).

(** [q] occurs in [s] as a contiguous run of characters, and does so up
    to case. *)
Definition occurs (q s : string) : Prop :=
  ∃ pre post, s = pre +:+ q +:+ post.

Definition occurs_ci (q s : string) : Prop := occurs (lower q) (lower s).

(** The filter as the specification words it: the query text itself is
    looked for, up to case, and only the empty text shows everything. *)
Definition claimed_shown (text : string) (m : mod_info) : bool :=
  negb (nonempty text)
  || py_in (lower text) (lower (name m))
  || py_in (lower text) (lower (modid m))
  || py_in (lower text) (lower (workshopid m)).

Definition claimed_filter (text : string) (l : list mod_info) : list row :=
  map row_of (List.filter (claimed_shown text) l).

(** [a <= b] on keys that compare: [b < a] is false. *)
Definition key_le (a b : key) : Prop := key_lt b a = Some false.

Definition is_int (k : key) : bool :=
  match k with
  | KInt _ => true
  | KStr _ => false
  end.

(** Two rows are in the order of column [column_index]: ascending, or
    descending when [reverse] is set. *)
Definition ordered (reverse : bool) (column_index : nat) (r1 r2 : row)
  : Prop :=
  if reverse
  then key_le (sort_key column_index r2) (sort_key column_index r1)
  else key_le (sort_key column_index r1) (sort_key column_index r2).

(** The direction the next activation of [col] will use. *)
Definition direction (col : string) (st : ModInfoApp) : bool :=
  default false (_sort_dir st !! col).

(** A row as the list of fields written to the CSV file, and the data
    rows of what [export_csv] wrote. *)
Definition fields (r : row) : list string :=
  let '(a, b, c) := r in [a; b; c].

Definition data_rows (written : option (list (list string)))
  : list (list string) :=
  match written with
  | Some (_ :: rows) => rows
  | _ => []
  end.

(** What one raw line offers the parser: the cleaned key and value of a
    line that is not skipped. *)
Definition key_value (raw_line : string) : option (string * string) :=
  let line := strip raw_line in
  if skipped line then None
  else
    match split1 "=" line with
    | [key; value] => Some (clean_key key, clean_value value)
    | _ => None
    end.

(** The line is a [name] line with a non-empty value. *)
Definition name_of_line (raw_line : string) : option string :=
  match key_value raw_line with
  | Some (k, v) => if String.eqb k "name" && nonempty v then Some v else None
  | None => None
  end.

(** The line is an [id] line with a non-empty value. *)
Definition id_value_of_line (raw_line : string) : option string :=
  match key_value raw_line with
  | Some (k, v) => if String.eqb k "id" && nonempty v then Some v else None
  | None => None
  end.

(** The line is an [id] line with a non-empty value whose first segment,
    stripped, is not empty either. *)
Definition modid_of_line (raw_line : string) : option string :=
  match id_value_of_line raw_line with
  | Some v =>
      if nonempty (first_segment v) then Some (first_segment v) else None
  | None => None
  end.

(** Both fields are captured. *)
Definition both (name modid : option string) : bool :=
  truthy name && truthy modid.

(** Both fields are captured once the lines [l] of a file have been read. *)
Definition captured (l : list string) : bool :=
  let '(n, m, _) := read_lines 1 l None None in both n m.

Fixpoint first_some {A B : Type} (g : A -> option B) (l : list A)
  : option B :=
  match l with
  | [] => None
  | x :: l' =>
      match g x with
      | Some y => Some y
      | None => first_some g l'
      end
  end.

(** The modid as the specification words it: the first segment of the
    value of the first [id] line with a non-empty value. *)
Definition claimed_modid (f : list string) : option string :=
  first_segment <$> first_some id_value_of_line f.

(** One layer of surrounding quotes removed, as the specification words
    it: a value that starts and ends with the same quote character loses
    that pair and nothing more. *)
Definition drop_last (s : string) : string :=
  String.substring 0 (String.length s - 1) s.

Definition unquote_once (s : string) : string :=
  match s with
  | String c r =>
      if (Ascii.eqb c dquote || Ascii.eqb c "'")
         && bool_decide (last_char r = Some c)
      then drop_last r else s
  | "" => ""
  end.

Definition claimed_value (value : string) : string :=
  unquote_once (strip value).

(** ** Sample inputs *)

Definition nl : string := String "010" "".

(** A [mod.info] with a name and a multi-value id. *)
Definition file_basic : list string :=
  ["name=Test Mod" +:+ nl; "id=123456;654321" +:+ nl].

(** A [mod.info] without an id. *)
Definition file_no_id : list string := ["name=Test Mod" +:+ nl].

(** A [mod.info] whose first id line starts with a semicolon. *)
Definition file_segment : list string :=
  ["id=;a" +:+ nl; "id=b" +:+ nl; "name=n" +:+ nl].

(** The text of a value wrapped in two layers of double quotes, and a
    [mod.info] that uses it as the name. *)
Definition quoted_twice : string :=
  String dquote (String dquote ("x" +:+ String dquote (String dquote ""))).

Definition quoted_once : string := String dquote ("x" +:+ String dquote "").

Definition file_quoted : list string :=
  ["name=" +:+ quoted_twice +:+ nl; "id=a" +:+ nl].

(** The application after a scan that found [l], with the search box
    holding [text]. *)
Definition scanned (l : list mod_info) (text : string) : ModInfoApp :=
  _apply_filter (App l text [] ∅).

Definition mods_numeric : list mod_info :=
  [Mod "a" "x" "10"; Mod "b" "y" "2"; Mod "c" "z" "1"].

Definition mods_mixed : list mod_info :=
  [Mod "a" "x" "10"; Mod "b" "y" "abc"].

Definition mods_names : list mod_info :=
  [Mod "b" "x" "1"; Mod "a" "y" "2"; Mod "c" "z" "3"].

(** ** More of the program *)

(** A raw line the loop passes over: blank, without an equals sign, or a
    comment. *)
Definition ignored (raw_line : string) : bool := skipped (strip raw_line).

(** [file_basic] after a comment that looks like a name line and a blank
    line. *)
Definition file_commented : list string :=
  ("# name=Other" +:+ nl) :: nl :: file_basic.

(** *** [scan_mods] *)

(** What [os.scandir] yields for one entry of the folder: its name,
    whether it is a directory, and what [find_modinfo] and [open] hand to
    the parser for it. *)
Record dir_entry := Entry {
  entry_name : string;
  entry_is_dir : bool;
  entry_file : option (list string)
}.

(** The exception that ends the listing of the folder, if any. *)
Inductive scan_error := PermissionError | OSError | OtherError.

(** The error dialogs of [scan_mods]. *)
Inductive dialog :=
  | SelectFolder
  | FolderMissing (folder_path : string)
  | PermissionDenied (folder_path : string)
  | SystemError
  | UnexpectedError.

(** The loop over the entries: [self.mods] and the two counters.
    [_read_mod_info] catches what the file system raises, and the record
    it returns is a non-empty dictionary, hence true. *)
Fixpoint scan_loop (entries : list dir_entry) (l : list mod_info)
    (scanned_count found_count : nat) : list mod_info * nat * nat :=
  match entries with
  | [] => (l, scanned_count, found_count)
  | entry :: rest =>
      if entry_is_dir entry then
        match _read_mod_info (entry_file entry) (entry_name entry) with
        | Some mod_info =>
            scan_loop rest (l ++ [mod_info]) (S scanned_count)
              (S found_count)
        | None => scan_loop rest l (S scanned_count) found_count
        end
      else scan_loop rest l scanned_count found_count
  end.

(** What a scan reports: the error dialog shown, if any, and the counts
    of the final status line, found mods and scanned folders, when the
    scan ran. *)
Record scan_report := Report {
  scan_dialog : option dialog;
  scan_status : option (nat * nat)
}.

(** [scan_mods].  [mod_folder] is the text of the folder box, [isdir]
    the answer of [os.path.isdir] for it, [entries] what the listing
    yields before it ends, and [failure] the exception that ends it
    early, if any.  The [finally] clause refreshes the view in every
    case. *)
Definition scan_mods (mod_folder : string) (isdir : bool)
    (entries : list dir_entry) (failure : option scan_error)
    (st : ModInfoApp) : scan_report * ModInfoApp :=
  let folder_path := strip mod_folder in
  if negb (nonempty folder_path) then (Report (Some SelectFolder) None, st)
  else if negb isdir
  then (Report (Some (FolderMissing folder_path)) None, st)
  else
    let '(l, scanned_count, found_count) := scan_loop entries [] 0 0 in
    let shown_dialog :=
      match failure with
      | None => None
      | Some PermissionError => Some (PermissionDenied folder_path)
      | Some OSError => Some SystemError
      | Some OtherError => Some UnexpectedError
      end in
    (Report shown_dialog (Some (found_count, scanned_count)),
     _apply_filter (App l (search_var st) [] (_sort_dir st))).

(** *** The search box *)

(** The entry writes the text typed or pasted into [search_var] and calls
    nothing; [_on_search], bound to the release of a key in the entry,
    and [_clear_search] run the filter. *)
Definition set_search (text : string) (st : ModInfoApp) : ModInfoApp :=
  App (mods st) text (tree st) (_sort_dir st).

Definition _on_search (st : ModInfoApp) : ModInfoApp := _apply_filter st.

Definition _clear_search (st : ModInfoApp) : ModInfoApp :=
  _apply_filter (set_search "" st).

(** *** The application as a machine *)

(** What the user does to the table: a scan, an edit of the search box
    that leaves it holding [text], the release of a key in the search
    box, the Clear button, a click on a column heading. *)
Inductive event :=
  | EvScan (mod_folder : string) (isdir : bool) (entries : list dir_entry)
      (failure : option scan_error)
  | EvEdit (text : string)
  | EvKeyRelease
  | EvClearSearch
  | EvSort (col : string).

Definition handle (st : ModInfoApp) (e : event) : ModInfoApp :=
  match e with
  | EvScan mod_folder isdir entries failure =>
      (scan_mods mod_folder isdir entries failure st).2
  | EvEdit text => set_search text st
  | EvKeyRelease => _on_search st
  | EvClearSearch => _clear_search st
  | EvSort col => (_sort_by col st).2
  end.

(** Whether the search box was edited after the last filter pass: an
    edit makes the view stale, a filter pass (a key released in the box,
    Clear, a scan that runs) makes it fresh. *)
Definition stale_after (stale : bool) (e : event) : bool :=
  match e with
  | EvScan mod_folder isdir _ _ =>
      if nonempty (strip mod_folder) && isdir then false else stale
  | EvEdit _ => true
  | EvKeyRelease => false
  | EvClearSearch => false
  | EvSort _ => stale
  end.

Definition stale (events : list event) : bool :=
  fold_left stale_after events false.

(** The application as [__init__] leaves it, and after a run of events. *)
Definition initial : ModInfoApp := App [] "" [] ∅.

Definition run (events : list event) : ModInfoApp :=
  fold_left handle events initial.

(** The rows the current search text lets through, in scan order. *)
Definition filtered_rows (st : ModInfoApp) : list row :=
  filter_loop (query_of (search_var st)) (mods st) [].

(** A mod as the parser makes them: neither field is empty. *)
Definition well_formed (m : mod_info) : Prop := name m ≠ "" ∧ modid m ≠ "".

(** A folder with two mods, a file and a folder without [mod.info]. *)
Definition sample_entries : list dir_entry :=
  [Entry "A" true (Some file_basic);
   Entry "readme.txt" false None;
   Entry "B" true (Some file_no_id);
   Entry "C" true (Some file_segment);
   Entry "D" true None].

(** *** Keys that are equal *)

Definition key_eqb (a b : key) : bool :=
  match a, b with
  | KInt x, KInt y => (x =? y)%Z
  | KStr s, KStr t => String.eqb s t
  | _, _ => false
  end.

(** The rows of [l] whose key in column [column_index] is [k], in the
    order they have in [l]. *)
Definition rows_with_key (column_index : nat) (k : key) (l : list row)
  : list row :=
  List.filter (λ r, key_eqb (sort_key column_index r) k) l.

(** A view with two pairs of rows that tie on the name up to case. *)
Definition mods_ties : list mod_info :=
  [Mod "b" "1" "30"; Mod "A" "2" "20"; Mod "B" "3" "10"; Mod "a" "4" "40"].

(** *** The clipboard *)

(** [sep.join(l)]. *)
Fixpoint join (sep : string) (l : list string) : string :=
  match l with
  | [] => ""
  | x :: rest =>
      match rest with
      | [] => x
      | _ :: _ => x +:+ sep +:+ join sep rest
      end
  end.

(** The line [copy_selected] makes of one selected row. *)
Definition copy_line (values : row) : string :=
  let '(n, m, w) := values in
  "Name=" +:+ n +:+ "; ID=" +:+ m +:+ "; WorkshopID=" +:+ w.

(** The three copy actions, on the values of the selected items in the
    order the tree gives them: the text put on the clipboard, or [None]
    when nothing is selected and the clipboard is left alone. *)
Definition copy_selected (selection : list row) : option string :=
  match selection with
  | [] => None
  | _ :: _ => Some (join nl (map copy_line selection))
  end.

Definition copy_modid (selection : list row) : option string :=
  match selection with
  | [] => None
  | _ :: _ => Some (join nl (map (column 1) selection))
  end.

Definition copy_workshopid (selection : list row) : option string :=
  match selection with
  | [] => None
  | _ :: _ => Some (join nl (map (column 2) selection))
  end.

(** *** The hover highlight *)

(** The tags of the items of the tree, by item id, and [_last_hover]. *)
Record hover_view := HoverView {
  item_tags : gmap string (list string);
  _last_hover : option string
}.

Inductive tk_exn := TclError.

(** The tags of an item without the hover tag. *)
Definition without_hover (tags : list string) : list string :=
  List.filter (λ t, negb (String.eqb t "hover")) tags.

(** The first step of [_hover_row] and of [_clear_hover]: the item last
    hovered, if it is set and still exists, loses the hover tag. *)
Definition drop_hover (h : hover_view) : gmap string (list string) :=
  match _last_hover h with
  | Some last =>
      if nonempty last then
        match item_tags h !! last with
        | Some tags => <[last := without_hover tags]> (item_tags h)
        | None => item_tags h
        end
      else item_tags h
  | None => item_tags h
  end.

Definition _clear_hover (h : hover_view) : hover_view :=
  HoverView (drop_hover h) None.

(** [_hover_row], with [iid] the answer of [identify_row]: an item id, or
    the empty string away from every row.  Reading the tags of an id that
    is not an item raises [TclError], after the first step and before
    [_last_hover] is written. *)
Definition _hover_row (iid : string) (h : hover_view)
  : option tk_exn * hover_view :=
  if decide (_last_hover h = Some iid) then (None, h)
  else
    let t := drop_hover h in
    if nonempty iid then
      match t !! iid with
      | Some tags =>
          let tags' :=
            if existsb (String.eqb "hover") tags then tags
            else tags ++ ["hover"] in
          (None, HoverView (<[iid := tags']> t) (Some iid))
      | None => (Some TclError, HoverView t (_last_hover h))
      end
    else (None, HoverView t (Some iid)).

(** A tree of two rows, the first one hovered. *)
Definition hover_sample : hover_view :=
  HoverView (<["I001" := ["even"; "hover"]]> (<["I002" := ["odd"]]> ∅))
    (Some "I001").

(** The tags hold the hover tag. *)
Definition hovered (tags : list string) : bool :=
  existsb (String.eqb "hover") tags.

(** Only the item recorded in [_last_hover] may carry the hover tag. *)
Definition hover_ok (h : hover_view) : Prop :=
  ∀ i tags, item_tags h !! i = Some tags → hovered tags = true →
            _last_hover h = Some i ∧ i ≠ "".

(** *** Fatal errors *)

(** The error line of the dialog of [_fatal]: the first line of the
    message, or a fixed text for the empty message. *)
Definition fatal_error_line (msg : string) : string :=
  if nonempty msg then hd "" (split "010" msg) else "Unknown error".

(** The message the callback error handler hands to [_fatal], for the
    formatted traceback [error_msg]. *)
Definition gui_error_message (error_msg : string) : string :=
  "GUI Error: " +:+ error_msg.

(** Runs of events for the samples: a scan of [sample_entries] and two
    clicks on the ModID heading; the same scan and an edit of the search
    box that no key release follows. *)
Definition events_sorted : list event :=
  [EvScan "mods" true sample_entries None; EvSort "ModID"; EvSort "ModID"].

Definition events_edited : list event :=
  [EvScan "mods" true sample_entries None; EvEdit "zzz"].

(** * Properties *)

(** ** Strings *)

Lemma app_nil (s : string) : "" +:+ s = s.
Proof. reflexivity. Qed.

Lemma app_cons c (r s : string) : String c r +:+ s = String c (r +:+ s).
Proof. reflexivity. Qed.

Lemma app_empty_r (s : string) : s +:+ "" = s.
Proof. induction s as [|c r IH]; [done | by rewrite app_cons, IH]. Qed.

Lemma app_assoc_s (a b c : string) : (a +:+ b) +:+ c = a +:+ (b +:+ c).
Proof. induction a as [|x a IH]; [done | by rewrite !app_cons, IH]. Qed.

Lemma lstrip_spec p s :
  ∃ pre, s = pre +:+ lstrip p s ∧ all_chars p pre = true
         ∧ ∀ c, first_char (lstrip p s) = Some c → p c = false.
Proof.
  induction s as [|c r (pre & Hs & Hpre & Hfirst)]; simpl.
  - exists "". split_and!; [done | done | intros c [=]].
  - destruct (p c) eqn:Hc.
    + exists (String c pre). rewrite app_cons, <- Hs. simpl.
      by rewrite Hc, Hpre.
    + exists "". split_and!; [done | done |].
      intros c' [= <-]. done.
Qed.

Lemma rstrip_spec p s :
  ∃ post, s = rstrip p s +:+ post ∧ all_chars p post = true
          ∧ ∀ c, last_char (rstrip p s) = Some c → p c = false.
Proof.
  induction s as [|c r (post & Hs & Hpost & Hlast)]; simpl.
  - exists "". split_and!; [done | done | intros c [=]].
  - destruct (rstrip p r) as [|c' r'] eqn:Hr.
    + rewrite app_nil in Hs. subst post. destruct (p c) eqn:Hc.
      * exists (String c r). simpl. by rewrite Hc, Hpost.
      * exists r. split_and!; [done | done |]. intros ? [= <-]. done.
    + exists post. rewrite app_cons, <- Hs.
      split_and!; [done | done |]. intros c0 H0. apply Hlast. done.
Qed.
Lemma rstrip_first p s c :
  first_char s = Some c → p c = false → first_char (rstrip p s) = Some c.
Proof.
  destruct s as [|c' r]; simpl; [done |]. intros [= ->] Hc.
  destruct (rstrip p r); [by rewrite Hc | done].
Qed.

Lemma rstrip_first_inv p s c :
  first_char (rstrip p s) = Some c → first_char s = Some c.
Proof.
  destruct s as [|c' r]; simpl; [done |].
  destruct (rstrip p r); [destruct (p c') |]; simpl; congruence.
Qed.

(** [strip] and [strip(q)] return the trimmed string. *)
Lemma strip_with_trimmed p s : trimmed p s (rstrip p (lstrip p s)).
Proof.
  destruct (lstrip_spec p s) as (pre & Hs & Hpre & Hfirst).
  destruct (rstrip_spec p (lstrip p s)) as (post & Hs' & Hpost & Hlast).
  exists pre, post. split_and!; [| done | done | | done].
  - by rewrite <- Hs'.
  - intros c Hc. apply Hfirst. by eapply rstrip_first_inv.
Qed.

Lemma strip_trimmed s : trimmed is_space s (strip s).
Proof. apply strip_with_trimmed. Qed.

Lemma strip_char_trimmed q s : trimmed (Ascii.eqb q) s (strip_char q s).
Proof. apply strip_with_trimmed. Qed.

(** [split] on the first separator: either there is none, or the string
    is cut at the first one. *)
Lemma py_in_char sep c r :
  py_in (String sep "") (String c r)
  = Ascii.eqb c sep || py_in (String sep "") r.
Proof.
  simpl. destruct (ascii_dec sep c) as [->|Hne].
  - rewrite Ascii.eqb_refl. by destruct r.
  - assert (Ascii.eqb c sep = false) as -> by (apply Ascii.eqb_neq; congruence).
    done.
Qed.

Lemma split1_spec sep s :
  (py_in (String sep "") s = false ∧ split1 sep s = [s])
  ∨ (∃ k v, s = k +:+ String sep v
            ∧ py_in (String sep "") k = false ∧ split1 sep s = [k; v]).
Proof.
  induction s as [|c r IH]; [by left |].
  rewrite py_in_char. simpl split1.
  destruct (Ascii.eqb c sep) eqn:Hc.
  - apply Ascii.eqb_eq in Hc as ->. right. by exists "", r.
  - destruct IH as [[Hin ->] | (k & v & -> & Hin & ->)].
    + left. done.
    + right. exists (String c k), v. rewrite py_in_char, Hc. done.
Qed.

Lemma split1_found sep s :
  py_in (String sep "") s = true →
  ∃ k v, s = k +:+ String sep v
         ∧ py_in (String sep "") k = false ∧ split1 sep s = [k; v].
Proof. destruct (split1_spec sep s) as [[? ?]|?]; [congruence | done]. Qed.

Lemma split_nonnil sep s : split sep s ≠ [].
Proof.
  induction s as [|c r IH]; simpl; [done |].
  destruct (Ascii.eqb c sep); [done |]. by destruct (split sep r).
Qed.

(** The first part of [split] is what precedes the first separator. *)
Lemma split_hd_spec sep s :
  (py_in (String sep "") s = false ∧ hd "" (split sep s) = s)
  ∨ (∃ v, s = hd "" (split sep s) +:+ String sep v
          ∧ py_in (String sep "") (hd "" (split sep s)) = false).
Proof.
  induction s as [|c r IH]; [by left |].
  rewrite py_in_char. simpl split.
  destruct (Ascii.eqb c sep) eqn:Hc.
  - apply Ascii.eqb_eq in Hc as ->. right. exists r. split; reflexivity.
  - destruct (split sep r) as [|a rest] eqn:Hsp.
    + by apply split_nonnil in Hsp.
    + simpl hd in *. destruct IH as [[Hin ->] | (v & Hr & Hin)].
      * left. done.
      * right. exists v. rewrite py_in_char, Hc, app_cons, <- Hr. done.
Qed.

(** ** The parser loop *)

(** One iteration, with the parsing of the line factored out. *)
Lemma read_lines_cons n raw f' name modid :
  read_lines n (raw :: f') name modid =
  if (500 <? n)%nat then (name, modid, f')
  else
    match key_value raw with
    | None => read_lines (S n) f' name modid
    | Some (k, v) =>
        let '(a, b) := assign k v name modid in
        if both a b then (a, b, f') else read_lines (S n) f' a b
    end.
Proof.
  cbn [read_lines]. unfold key_value.
  destruct (500 <? n)%nat; [done |].
  destruct (skipped (strip raw)); [done |].
  by destruct (split1 "=" (strip raw)) as [|k [|v [|? ?]]].
Qed.

(** The two branches of [assign] never interfere: the key is one word. *)
Lemma assign_spec k v name modid :
  assign k v name modid =
  (if String.eqb k "name" && negb (truthy name) && nonempty v
   then Some v else name,
   if String.eqb k "id" && negb (truthy modid) && nonempty v
   then Some (first_segment v) else modid).
Proof.
  unfold assign. destruct (String.eqb k "name") eqn:E.
  - apply String.eqb_eq in E as ->.
    change (String.eqb "name" "id") with false.
    by destruct (negb (truthy name)), (nonempty v).
  - cbn [andb].
    by destruct (String.eqb k "id" && negb (truthy modid) && nonempty v).
Qed.

Lemma truthy_Some s : truthy (Some s) = nonempty s.
Proof. by destruct s. Qed.

Lemma truthy_true v : truthy v = true → ∃ s, v = Some s ∧ nonempty s = true.
Proof. destruct v as [[|c r]|]; simpl; [done | eauto | done]. Qed.

(** What one line does to [modid] while it is not captured. *)
Lemma line_modid raw name modid :
  truthy modid = false →
  match key_value raw with
  | None => modid_of_line raw = None
  | Some (k, v) =>
      let b := (assign k v name modid).2 in
      (truthy b = false ∧ modid_of_line raw = None)
      ∨ (truthy b = true ∧ modid_of_line raw = b)
  end.
Proof.
  intros Hm. unfold modid_of_line, id_value_of_line.
  destruct (key_value raw) as [[k v]|]; [| done].
  rewrite assign_spec. cbn [snd]. rewrite Hm. cbn [negb].
  rewrite andb_true_r.
  destruct (String.eqb k "id" && nonempty v); [| by left].
  rewrite truthy_Some.
  destruct (nonempty (first_segment v)); [by right | by left].
Qed.

(** What one line does to [name] while it is not captured. *)
Lemma line_name raw name modid :
  truthy name = false →
  match key_value raw with
  | None => name_of_line raw = None
  | Some (k, v) =>
      let a := (assign k v name modid).1 in
      (a = name ∧ name_of_line raw = None)
      ∨ (truthy a = true ∧ name_of_line raw = a)
  end.
Proof.
  intros Hn. unfold name_of_line.
  destruct (key_value raw) as [[k v]|]; [| done].
  rewrite assign_spec. cbn [fst]. rewrite Hn. cbn [negb].
  rewrite andb_true_r.
  destruct (String.eqb k "name" && nonempty v) eqn:E; [| by left].
  right. rewrite truthy_Some. apply andb_true_iff in E as [_ ->]. done.
Qed.

(** A captured field is never overwritten. *)
Lemma read_lines_modid_kept f n name modid :
  truthy modid = true → (read_lines n f name modid).1.2 = modid.
Proof.
  revert n name. induction f as [|raw f' IH]; intros n name Hm; [done |].
  rewrite read_lines_cons. destruct (500 <? n)%nat; [done |].
  destruct (key_value raw) as [[k v]|]; [| by apply IH].
  rewrite assign_spec, Hm. cbn [negb]. rewrite andb_false_r. cbn [andb].
  match goal with |- context [both ?a modid] => destruct (both a modid) end;
    [done | by apply IH].
Qed.

Lemma read_lines_name_kept f n name modid :
  truthy name = true → (read_lines n f name modid).1.1 = name.
Proof.
  revert n modid. induction f as [|raw f' IH]; intros n modid Hn; [done |].
  rewrite read_lines_cons. destruct (500 <? n)%nat; [done |].
  destruct (key_value raw) as [[k v]|]; [| by apply IH].
  rewrite assign_spec, Hn. cbn [negb]. rewrite andb_false_r. cbn [andb].
  match goal with |- context [both name ?b] => destruct (both name b) end;
    [done | by apply IH].
Qed.

Lemma limit_succ n : (500 <? n)%nat = false → 501 - n = S (501 - S n).
Proof. intros H%Nat.ltb_ge. lia. Qed.

Lemma limit_zero n : (500 <? n)%nat = true → 501 - n = 0.
Proof. intros H%Nat.ltb_lt. lia. Qed.

(** Where the final [modid] comes from: either no line among those the
    loop may process offers one and none is captured, or the captured
    value is the offer of the first line that makes one. *)
Lemma read_lines_modid_origin f n name modid :
  truthy modid = false →
  let m' := (read_lines n f name modid).1.2 in
  (Forall (λ l, modid_of_line l = None) (take (501 - n) f)
   ∧ truthy m' = false)
  ∨ (∃ (pre : list string) raw post, take (501 - n) f = pre ++ raw :: post
       ∧ Forall (λ l, modid_of_line l = None) pre
       ∧ modid_of_line raw = m' ∧ truthy m' = true).
Proof.
  revert n name modid.
  induction f as [|raw f' IH]; intros n name modid Hm; cbn zeta.
  { left. by rewrite take_nil. }
  rewrite read_lines_cons. destruct (500 <? n)%nat eqn:Hn.
  { left. by rewrite (limit_zero _ Hn). }
  rewrite (limit_succ _ Hn), firstn_cons.
  pose proof (line_modid raw name modid Hm) as Hline.
  destruct (key_value raw) as [[k v]|].
  - destruct (assign k v name modid) as [a b]. cbn [snd] in Hline.
    destruct Hline as [[Hb Hraw] | [Hb Hraw]].
    + unfold both. rewrite Hb, andb_false_r.
      destruct (IH (S n) a b Hb) as [[Hall Hm'] | (pre & r & post & -> & Hpre & Hr)].
      * left. split; [by constructor | done].
      * right. exists (raw :: pre), r, post. split_and!; [done | by constructor | apply Hr | apply Hr].
    + right. exists [], raw, (take (501 - S n) f').
      assert ((if both a b then (a, b, f') else read_lines (S n) f' a b).1.2 = b)
        as -> by (destruct (both a b); [done | by apply read_lines_modid_kept]).
      done.
  - destruct (IH (S n) name modid Hm) as [[Hall Hm'] | (pre & r & post & -> & Hpre & Hr)].
    + left. split; [by constructor | done].
    + right. exists (raw :: pre), r, post. split_and!; [done | by constructor | apply Hr | apply Hr].
Qed.

(** The same for [name]. *)
Lemma read_lines_name_origin f n name modid :
  truthy name = false →
  let n' := (read_lines n f name modid).1.1 in
  (Forall (λ l, name_of_line l = None) (take (501 - n) f)
   ∧ truthy n' = false)
  ∨ (∃ (pre : list string) raw post, take (501 - n) f = pre ++ raw :: post
       ∧ Forall (λ l, name_of_line l = None) pre
       ∧ name_of_line raw = n' ∧ truthy n' = true).
Proof.
  revert n name modid.
  induction f as [|raw f' IH]; intros n name modid Hm; cbn zeta.
  { left. by rewrite take_nil. }
  rewrite read_lines_cons. destruct (500 <? n)%nat eqn:Hn.
  { left. by rewrite (limit_zero _ Hn). }
  rewrite (limit_succ _ Hn), firstn_cons.
  pose proof (line_name raw name modid Hm) as Hline.
  destruct (key_value raw) as [[k v]|].
  - destruct (assign k v name modid) as [a b]. cbn [fst] in Hline.
    destruct Hline as [[-> Hraw] | [Ha Hraw]].
    + unfold both. rewrite Hm, andb_false_l.
      destruct (IH (S n) name b Hm) as [[Hall Hm'] | (pre & r & post & -> & Hpre & Hr)].
      * left. split; [by constructor | done].
      * right. exists (raw :: pre), r, post. split_and!; [done | by constructor | apply Hr | apply Hr].
    + right. exists [], raw, (take (501 - S n) f').
      assert ((if both a b then (a, b, f') else read_lines (S n) f' a b).1.1 = a)
        as -> by (destruct (both a b); [done | by apply read_lines_name_kept]).
      done.
  - destruct (IH (S n) name modid Hm) as [[Hall Hm'] | (pre & r & post & -> & Hpre & Hr)].
    + left. split; [by constructor | done].
    + right. exists (raw :: pre), r, post. split_and!; [done | by constructor | apply Hr | apply Hr].
Qed.

(** How far the loop reads.  [pre] is what the iterator has yielded when
    the loop ends: at most the lines the limit lets through plus the one
    on which the limit is noticed; the fields depend only on the lines
    within the limit; and when both fields end up captured, the loop
    ended within the limit, on the first line after which they were. *)
Lemma read_lines_run f n name modid :
  both name modid = false →
  ∃ pre n' m' rest,
    read_lines n f name modid = (n', m', rest)
    ∧ f = pre ++ rest
    ∧ length pre ≤ S (501 - n)
    ∧ (read_lines n (take (501 - n) f) name modid).1 = (n', m')
    ∧ (both n' m' = true →
       length pre ≤ 501 - n
       ∧ read_lines n pre name modid = (n', m', [])
       ∧ ∀ j, j < length pre →
           (let '(a, b, _) := read_lines n (take j f) name modid in
            both a b) = false).
Proof.
  revert n name modid.
  induction f as [|raw f' IH]; intros n name modid H0.
  { exists [], name, modid, []. rewrite take_nil. cbn.
    split_and!; [done | done | lia | done | congruence]. }
  destruct (500 <? n)%nat eqn:Hn.
  { exists [raw], name, modid, f'.
    rewrite read_lines_cons, Hn, (limit_zero _ Hn). cbn.
    split_and!; [done | done | lia | done | congruence]. }
  assert (∀ a b, both a b = false →
    ∀ g, read_lines (S n) f' a b = g ∧
         (∀ l, read_lines n (raw :: l) name modid = read_lines (S n) l a b) →
    ∃ pre n' m' rest,
      g = (n', m', rest)
      ∧ raw :: f' = pre ++ rest
      ∧ length pre ≤ S (501 - n)
      ∧ (read_lines n (take (501 - n) (raw :: f')) name modid).1 = (n', m')
      ∧ (both n' m' = true →
         length pre ≤ 501 - n
         ∧ read_lines n pre name modid = (n', m', [])
         ∧ ∀ j, j < length pre →
             (let '(a, b, _) :=
                read_lines n (take j (raw :: f')) name modid in
              both a b) = false)) as Hcont.
  { intros a b Hab g [<- Hstep].
    destruct (IH (S n) a b Hab)
      as (pre & n' & m' & rest & Hrun & -> & Hlen & Htake & Hstop).
    exists (raw :: pre), n', m', rest.
    rewrite (limit_succ _ Hn), firstn_cons, Hstep. cbn [length].
    split_and!; [done | done | lia | done |].
    intros Hboth. destruct (Hstop Hboth) as (Hlen' & Hpre & Hbefore).
    split_and!; [lia | by rewrite Hstep |]. intros [|j] Hj.
    - cbn. done.
    - rewrite firstn_cons, Hstep. apply Hbefore. lia. }
  pose proof (λ l, read_lines_cons n raw l name modid) as Hcons.
  rewrite Hn in Hcons.
  destruct (key_value raw) as [[k v]|].
  - destruct (assign k v name modid) as [a b]. destruct (both a b) eqn:Hab.
    + exists [raw], a, b, f'.
      rewrite (limit_succ _ Hn), firstn_cons, !Hcons. cbn [length].
      split_and!; [done | done | lia | done |].
      intros _. split_and!; [lia | done |]. intros j Hj.
      assert (j = 0) as -> by lia. cbn. done.
    + apply (Hcont a b Hab). split; [by rewrite Hcons | done].
  - apply (Hcont name modid H0). split; [by rewrite Hcons | done].
Qed.

(** ** The parser: claims *)

Lemma read_mod_info_inv f wid r :
  _read_mod_info (Some f) wid = Some r →
  ∃ n m rest, read_lines 1 f None None = (n, m, rest)
    ∧ truthy n = true ∧ truthy m = true
    ∧ n = Some (name r) ∧ m = Some (modid r) ∧ workshopid r = wid.
Proof.
  unfold _read_mod_info.
  destruct (read_lines 1 f None None) as [[n m] rest].
  destruct (truthy n) eqn:Hn, (truthy m) eqn:Hm; try done.
  intros [= <-]. exists n, m, rest.
  apply truthy_true in Hn as (s & -> & Hs), Hm as (t & -> & Ht).
  by rewrite !truthy_Some.
Qed.

(** C1, as stated, fails: in [file_segment] the first id line with a
    non-empty value is [id=;a], whose first segment is empty, and the
    parser returns the modid [b] of the second id line. *)
Lemma modid_first_id_line_counterexample :
  _read_mod_info (Some file_segment) "w" = Some (Mod "n" "b" "w")
  ∧ claimed_modid file_segment = Some ""
  ∧ ¬ (∀ f wid r, _read_mod_info (Some f) wid = Some r →
         claimed_modid f = Some (modid r)).
Proof.
  split_and!; [by vm_compute | by vm_compute |].
  intros H. specialize (H file_segment "w" (Mod "n" "b" "w")).
  vm_compute in H. by specialize (H eq_refl).
Qed.

Lemma read_mod_info_modid_origin f wid r :
  _read_mod_info (Some f) wid = Some r →
  ∃ pre raw post v,
    take 500 f = pre ++ raw :: post
    ∧ id_value_of_line raw = Some v
    ∧ modid r = first_segment v
    ∧ modid r ≠ ""
    ∧ Forall (λ l, ∀ v', id_value_of_line l = Some v' →
                         first_segment v' = "") pre.
Proof.
  intros (n & m & rest & Hrun & Hn & Hm & -> & -> & _)%read_mod_info_inv.
  destruct (read_lines_modid_origin f 1 None None eq_refl)
    as [[_ Hno] | (pre & raw & post & Htake & Hpre & Hraw & _)];
    rewrite Hrun in *; cbn [fst snd] in *; [congruence |].
  unfold modid_of_line in Hraw.
  destruct (id_value_of_line raw) as [v|] eqn:Hv; [| done].
  destruct (nonempty (first_segment v)) eqn:Hseg; [| done].
  injection Hraw as Hraw. exists pre, raw, post, v.
  split_and!; [done | done | done | |].
  - rewrite <- Hraw. by destruct (first_segment v).
  - eapply Forall_impl; [exact Hpre |]. cbn beta.
    intros l Hl v' Hv'. unfold modid_of_line in Hl. rewrite Hv' in Hl.
    by destruct (first_segment v').
Qed.

(** A file whose first 500 lines offer a name and a modid gives a
    record. *)
Lemma read_mod_info_record f wid :
  Exists (λ l, is_Some (name_of_line l)) (take 500 f) →
  Exists (λ l, is_Some (modid_of_line l)) (take 500 f) →
  ∃ r, _read_mod_info (Some f) wid = Some r.
Proof.
  intros Hname Hmodid. unfold _read_mod_info.
  pose proof (read_lines_name_origin f 1 None None eq_refl) as Hn.
  pose proof (read_lines_modid_origin f 1 None None eq_refl) as Hm.
  destruct (read_lines 1 f None None) as [[n m] rest].
  cbn [fst snd] in *. change (501 - 1) with 500 in *.
  assert (truthy n = true) as ->.
  { destruct Hn as [[Hall _] | (_ & _ & _ & _ & _ & _ & Ht)]; [| done].
    apply Exists_exists in Hname as (l & Hl & [v Hv]).
    rewrite Forall_forall in Hall. rewrite (Hall l Hl) in Hv. done. }
  assert (truthy m = true) as ->.
  { destruct Hm as [[Hall _] | (_ & _ & _ & _ & _ & _ & Ht)]; [| done].
    apply Exists_exists in Hmodid as (l & Hl & [v Hv]).
    rewrite Forall_forall in Hall. rewrite (Hall l Hl) in Hv. done. }
  cbn [andb]. eauto.
Qed.

(** C1 (amended).  For every metadata file whose first 500 lines hold a
    name line with a non-empty value and an id line whose value and whose
    stripped first segment are non-empty, the parser returns a record,
    and the modid of the record is the stripped first segment of the
    quote-stripped value of the first such id line; id lines before it
    have an empty first segment, and what comes after it has no
    influence. *)
Theorem read_mod_info_modid f wid :
  Exists (λ l, is_Some (name_of_line l)) (take 500 f) →
  Exists (λ l, is_Some (modid_of_line l)) (take 500 f) →
  ∃ r pre raw post v,
    _read_mod_info (Some f) wid = Some r
    ∧ take 500 f = pre ++ raw :: post
    ∧ id_value_of_line raw = Some v
    ∧ modid r = first_segment v
    ∧ modid r ≠ ""
    ∧ Forall (λ l, ∀ v', id_value_of_line l = Some v' →
                         first_segment v' = "") pre.
Proof.
  intros Hname Hmodid.
  destruct (read_mod_info_record f wid Hname Hmodid) as [r Hr].
  destruct (read_mod_info_modid_origin f wid r Hr)
    as (pre & raw & post & v & H).
  by exists r, pre, raw, post, v.
Qed.

Lemma read_mod_info_modid_witness :
  ∃ r pre raw post v,
    _read_mod_info (Some file_segment) "w" = Some r
    ∧ take 500 file_segment = pre ++ raw :: post
    ∧ id_value_of_line raw = Some v
    ∧ modid r = first_segment v
    ∧ modid r ≠ ""
    ∧ Forall (λ l, ∀ v', id_value_of_line l = Some v' →
                         first_segment v' = "") pre.
Proof.
  apply (read_mod_info_modid file_segment "w").
  - change (take 500 file_segment) with file_segment.
    do 2 apply Exists_cons_tl. apply Exists_cons_hd.
    exists "n". vm_compute. reflexivity.
  - change (take 500 file_segment) with file_segment.
    apply Exists_cons_tl, Exists_cons_hd.
    exists "b". vm_compute. reflexivity.
Defined.

(** C2.  When no line among the first 500 offers a non-empty name, or
    none offers a non-empty modid, the parser returns no record. *)
Theorem read_mod_info_missing_field f wid :
  Forall (λ l, name_of_line l = None) (take 500 f)
  ∨ Forall (λ l, modid_of_line l = None) (take 500 f) →
  _read_mod_info (Some f) wid = None.
Proof.
  intros Hmissing. unfold _read_mod_info.
  pose proof (read_lines_name_origin f 1 None None eq_refl) as Hname.
  pose proof (read_lines_modid_origin f 1 None None eq_refl) as Hmodid.
  destruct (read_lines 1 f None None) as [[n m] rest].
  cbn [fst snd] in *. change (501 - 1) with 500 in *.
  assert (truthy n && truthy m = false) as ->; [| done].
  destruct Hmissing as [Hall | Hall].
  - destruct Hname as [[_ ->] | (pre & raw & post & Htake & _ & Hraw & Hn)];
      [done |].
    rewrite Htake in Hall. apply Forall_app in Hall as [_ Hall].
    apply Forall_cons in Hall as [Hnone _].
    rewrite Hnone in Hraw. by subst n.
  - destruct Hmodid as [[_ ->] | (pre & raw & post & Htake & _ & Hraw & Hm)];
      [by rewrite andb_false_r |].
    rewrite Htake in Hall. apply Forall_app in Hall as [_ Hall].
    apply Forall_cons in Hall as [Hnone _].
    rewrite Hnone in Hraw. by subst m.
Qed.

Lemma read_mod_info_missing_field_witness :
  _read_mod_info (Some file_no_id) "B" = None.
Proof.
  apply (read_mod_info_missing_field file_no_id "B").
  right. vm_compute. repeat constructor.
Defined.

(** A record exists only when both fields were extracted: its name and
    its modid are non-empty offers of lines among the first 500. *)
Corollary read_mod_info_both_fields f wid r :
  _read_mod_info (Some f) wid = Some r →
  workshopid r = wid
  ∧ name r ≠ "" ∧ modid r ≠ ""
  ∧ Exists (λ l, name_of_line l = Some (name r)) (take 500 f)
  ∧ Exists (λ l, modid_of_line l = Some (modid r)) (take 500 f).
Proof.
  intros (n & m & rest & Hrun & Hn & Hm & -> & -> & Hw)%read_mod_info_inv.
  rewrite truthy_Some in Hn, Hm.
  split_and!; [done | by destruct (name r) | by destruct (modid r) | |].
  - destruct (read_lines_name_origin f 1 None None eq_refl)
      as [[_ Hno] | (pre & raw & post & Htake & _ & Hraw & _)];
      rewrite Hrun in *; cbn [fst snd] in *.
    + rewrite truthy_Some in Hno. congruence.
    + change (501 - 1) with 500 in Htake. rewrite Htake.
      apply Exists_app. right. by constructor.
  - destruct (read_lines_modid_origin f 1 None None eq_refl)
      as [[_ Hno] | (pre & raw & post & Htake & _ & Hraw & _)];
      rewrite Hrun in *; cbn [fst snd] in *.
    + rewrite truthy_Some in Hno. congruence.
    + change (501 - 1) with 500 in Htake. rewrite Htake.
      apply Exists_app. right. by constructor.
Qed.

(** A file that is absent or cannot be opened gives no record. *)
Lemma read_mod_info_no_file wid : _read_mod_info None wid = None.
Proof. reflexivity. Qed.

(** C8.  The loop takes [pre] from the file and leaves [rest] unread.
    Only the first 500 lines are processed: the fields, and the record,
    are those of the file cut after 500 lines, and the iterator yields at
    most one line more, the one on which the limit is noticed.  When both
    fields end up captured, the loop ended within those 500 lines, on the
    line that completed the capture: [pre] captures both fields and no
    shorter prefix of the file does. *)
Theorem read_lines_bounded f :
  ∃ pre n m rest,
    read_lines 1 f None None = (n, m, rest)
    ∧ f = pre ++ rest
    ∧ length pre ≤ 501
    ∧ (read_lines 1 (take 500 f) None None).1 = (n, m)
    ∧ (∀ wid, _read_mod_info (Some f) wid
              = _read_mod_info (Some (take 500 f)) wid)
    ∧ (both n m = true →
       length pre ≤ 500
       ∧ read_lines 1 pre None None = (n, m, [])
       ∧ ∀ j, j < length pre → captured (take j f) = false).
Proof.
  destruct (read_lines_run f 1 None None eq_refl)
    as (pre & n & m & rest & Hrun & Hf & Hlen & Htake & Hstop).
  change (501 - 1) with 500 in *.
  exists pre, n, m, rest. split_and!; [done | done | done | done | | done].
  intros wid. unfold _read_mod_info. rewrite Hrun.
  destruct (read_lines 1 (take 500 f) None None) as [[n' m'] rest'].
  by injection Htake as -> ->.
Qed.

(** C3, as stated, fails: a value wrapped in two layers of double quotes
    loses both, where one removed layer would have left [quoted_once]. *)
Lemma one_quote_layer_counterexample :
  clean_value quoted_twice = "x"
  ∧ claimed_value quoted_twice = quoted_once
  ∧ _read_mod_info (Some file_quoted) "w" = Some (Mod "x" "a" "w")
  ∧ ¬ (∀ value, clean_value value = claimed_value value).
Proof.
  split_and!; [by vm_compute | by vm_compute | by vm_compute |].
  intros H. specialize (H quoted_twice). vm_compute in H. discriminate H.
Qed.

(** C3 (amended).  On a line that is not ignored, the stripped line is
    cut at its first equals sign into [k] and [v]; the key is [k]
    stripped and lower-cased; the value is [v] stripped, then without any
    leading or trailing double quote, then without any leading or
    trailing single quote; and the loop goes on with [assign] on that key
    and value. *)
Theorem read_lines_key_value n raw f' name modid :
  n ≤ 500 →
  skipped (strip raw) = false →
  ∃ k v u value,
    strip raw = k +:+ String "=" v
    ∧ py_in "=" k = false
    ∧ trimmed (Ascii.eqb dquote) (strip v) u
    ∧ trimmed (Ascii.eqb "'") u value
    ∧ read_lines n (raw :: f') name modid =
        let '(a, b) := assign (lower (strip k)) value name modid in
        if both a b then (a, b, f') else read_lines (S n) f' a b.
Proof.
  intros Hn Hskip.
  assert (py_in "=" (strip raw) = true) as Hin.
  { unfold skipped in Hskip.
    destruct (py_in "=" (strip raw)); [done |].
    by rewrite orb_true_r in Hskip. }
  destruct (split1_found "=" _ Hin) as (k & v & Hline & Hk & Hsplit).
  exists k, v, (strip_char dquote (strip v)), (clean_value v).
  split_and!; [done | done | apply strip_char_trimmed
              | apply strip_char_trimmed |].
  rewrite read_lines_cons.
  assert ((500 <? n) = false) as -> by (apply Nat.ltb_ge; lia).
  unfold key_value. by rewrite Hskip, Hsplit.
Qed.

Lemma read_lines_key_value_witness :
  ∃ k v u value,
    strip ("name=" +:+ quoted_twice +:+ nl) = k +:+ String "=" v
    ∧ py_in "=" k = false
    ∧ trimmed (Ascii.eqb dquote) (strip v) u
    ∧ trimmed (Ascii.eqb "'") u value
    ∧ read_lines 1 (("name=" +:+ quoted_twice +:+ nl) :: []) None None =
        let '(a, b) := assign (lower (strip k)) value None None in
        if both a b then (a, b, []) else read_lines 2 [] a b.
Proof.
  apply (read_lines_key_value 1 ("name=" +:+ quoted_twice +:+ nl) []
           None None); [lia | vm_compute; reflexivity].
Defined.

(** ** Keys and their order *)

Lemma key_lt_is_Some a b :
  is_int a = is_int b → ∃ c, key_lt a b = Some c.
Proof. destruct a, b; simpl; intros; try done; eauto. Qed.

Lemma key_lt_Some_kind a b c : key_lt a b = Some c → is_int a = is_int b.
Proof. by destruct a, b. Qed.

Lemma string_compare_ge_trans a b c :
  String.compare a b ≠ Lt → String.compare b c ≠ Lt →
  String.compare a c ≠ Lt.
Proof.
  revert b c. induction a as [|x a IH]; intros [|y b] [|z c]; simpl;
    try done.
  unfold Ascii.compare.
  destruct (N.compare_spec (N_of_ascii x) (N_of_ascii y)) as [Hxy|Hxy|Hxy],
    (N.compare_spec (N_of_ascii y) (N_of_ascii z)) as [Hyz|Hyz|Hyz],
    (N.compare_spec (N_of_ascii x) (N_of_ascii z)) as [Hxz|Hxz|Hxz];
    try done; try lia.
  apply IH.
Qed.

Lemma key_le_trans a b c : key_le a b → key_le b c → key_le a c.
Proof.
  unfold key_le. destruct a as [x|s], b as [y|t], c as [z|u]; simpl;
    try done.
  - intros [= H1] [= H2]. f_equal. lia.
  - unfold String.ltb. intros [= H1] [= H2]. f_equal.
    pose proof (string_compare_ge_trans u t s) as H.
    destruct (String.compare t s), (String.compare u t),
      (String.compare u s); try done; by exfalso; apply H.
Qed.

Lemma key_lt_le a b : key_lt a b = Some true → key_le a b.
Proof.
  unfold key_le. destruct a as [x|s], b as [y|t]; simpl; try done.
  - intros [= H]. f_equal. lia.
  - unfold String.ltb. rewrite (String.compare_antisym s t).
    by destruct (String.compare t s).
Qed.

(** On two [int] keys the order is the one of the integers. *)
Lemma key_le_int x y : key_le (KInt x) (KInt y) ↔ (x ≤ y)%Z.
Proof.
  unfold key_le. simpl. split.
  - intros [= H]. lia.
  - intros H. f_equal. lia.
Qed.

(** ** The sort *)

Section list_sort_facts.
Context {A : Type} (key_of : A -> key).

Local Abbreviation le_by := (λ x y, key_le (key_of x) (key_of y)).
Local Abbreviation kind x := (is_int (key_of x)).

Lemma insert_perm x l l' : insert key_of x l = Some l' → x :: l ≡ₚ l'.
Proof.
  revert l'. induction l as [|y l IH]; intros l'; simpl.
  - by intros [= <-].
  - destruct (key_lt (key_of y) (key_of x)) as [[]|]; simpl; [| | done].
    + destruct (insert key_of x l) as [l''|]; simpl; [| done].
      intros [= <-]. rewrite <- (IH l'' eq_refl). apply perm_swap.
    + by intros [= <-].
Qed.

Lemma sort_asc_perm l l' : sort_asc key_of l = Some l' → l ≡ₚ l'.
Proof.
  revert l'. induction l as [|x l IH]; intros l'; simpl.
  - by intros [= <-].
  - destruct (sort_asc key_of l) as [s|]; simpl; [| done].
    intros H%insert_perm. by rewrite (IH s eq_refl).
Qed.

Lemma list_sort_perm reverse l l' :
  list_sort key_of reverse l = Some l' → l ≡ₚ l'.
Proof.
  unfold list_sort. destruct reverse; [| apply sort_asc_perm].
  destruct (sort_asc key_of (rev l)) as [s|] eqn:Hs; simpl; [| done].
  intros [= <-]. apply sort_asc_perm in Hs.
  by rewrite <- Permutation_rev, <- Hs, <- Permutation_rev.
Qed.

Lemma insert_sorted x l l' :
  StronglySorted le_by l → insert key_of x l = Some l' →
  StronglySorted le_by l'.
Proof.
  revert l'. induction l as [|y l IH]; intros l' Hl; simpl.
  - intros [= <-]. by repeat constructor.
  - apply StronglySorted_inv in Hl as [Hl Hy].
    destruct (key_lt (key_of y) (key_of x)) as [[]|] eqn:Hlt; simpl;
      [| | done].
    + destruct (insert key_of x l) as [l''|] eqn:Hins; simpl; [| done].
      intros [= <-]. constructor; [by apply IH |].
      rewrite <- (insert_perm _ _ _ Hins).
      constructor; [by apply key_lt_le | done].
    + intros [= <-]. constructor; [by constructor |].
      constructor; [done |].
      eapply Forall_impl; [exact Hy |]. cbn beta. intros z Hz.
      by eapply key_le_trans.
Qed.

Lemma sort_asc_sorted l l' :
  sort_asc key_of l = Some l' → StronglySorted le_by l'.
Proof.
  revert l'. induction l as [|x l IH]; intros l'; simpl.
  - intros [= <-]. constructor.
  - destruct (sort_asc key_of l) as [s|]; simpl; [| done].
    apply insert_sorted. by apply IH.
Qed.

Lemma StronglySorted_rev_flip (R : A -> A -> Prop) l :
  StronglySorted R l → StronglySorted (flip R) (rev l).
Proof.
  induction 1 as [|x l Hl IH Hx]; simpl; [constructor |].
  apply StronglySorted_app_2; [| done | by repeat constructor].
  intros x1 x2 Hx1 ->%list_elem_of_singleton.
  rewrite Forall_forall in Hx.
  apply Hx, list_elem_of_In, in_rev, list_elem_of_In, Hx1.
Qed.

(** The sort goes through exactly when all the keys are of one kind. *)
Lemma insert_Some x l :
  Forall (λ y, kind y = kind x) l → ∃ l', insert key_of x l = Some l'.
Proof.
  induction 1 as [|y l Hy Hl [l'' IH]]; simpl; [eauto |].
  destruct (key_lt_is_Some _ _ Hy) as [[] ->]; simpl; [| eauto].
  rewrite IH. simpl. eauto.
Qed.

Lemma sort_asc_Some b l :
  Forall (λ y, kind y = b) l → ∃ l', sort_asc key_of l = Some l'.
Proof.
  induction 1 as [|x l Hx Hl [s IH]]; simpl; [eauto |].
  rewrite IH. simpl. apply insert_Some.
  rewrite <- (sort_asc_perm _ _ IH).
  eapply Forall_impl; [exact Hl |]. cbn beta. congruence.
Qed.

Lemma sort_asc_one_kind l l' :
  sort_asc key_of l = Some l' → ∃ b, Forall (λ y, kind y = b) l.
Proof.
  revert l'. induction l as [|x l IH]; intros l'; simpl.
  - exists true. constructor.
  - destruct (sort_asc key_of l) as [s|] eqn:Hs; simpl; [| done].
    destruct (IH s eq_refl) as [b Hb]. intros Hins.
    destruct s as [|y s'].
    + apply sort_asc_perm, Permutation_nil_r in Hs as ->.
      exists (kind x). by repeat constructor.
    + exists b. constructor; [| done].
      simpl in Hins.
      destruct (key_lt (key_of y) (key_of x)) as [c|] eqn:Hlt; [| done].
      apply key_lt_Some_kind in Hlt. rewrite <- Hlt.
      rewrite (sort_asc_perm _ _ Hs) in Hb.
      by apply Forall_cons in Hb as [-> _].
Qed.

Lemma list_sort_Some reverse b l :
  Forall (λ y, kind y = b) l → ∃ l', list_sort key_of reverse l = Some l'.
Proof.
  intros Hl. unfold list_sort. destruct reverse.
  - destruct (sort_asc_Some b (rev l)) as [s ->]; [| simpl; eauto].
    by rewrite <- Permutation_rev.
  - by apply (sort_asc_Some b).
Qed.

Lemma list_sort_one_kind reverse l l' :
  list_sort key_of reverse l = Some l' →
  ∃ b, Forall (λ y, kind y = b) l.
Proof.
  unfold list_sort. destruct reverse.
  - destruct (sort_asc key_of (rev l)) as [s|] eqn:Hs; simpl; [| done].
    intros _. destruct (sort_asc_one_kind _ _ Hs) as [b Hb].
    exists b. by rewrite Permutation_rev.
  - apply sort_asc_one_kind.
Qed.

(** An [int] key next to a [str] key: the sort raises. *)
Lemma list_sort_mixed reverse l x y :
  x ∈ l → y ∈ l → kind x = true → kind y = false →
  list_sort key_of reverse l = None.
Proof.
  intros Hx Hy Kx Ky.
  destruct (list_sort key_of reverse l) as [l'|] eqn:Hs; [| done].
  destruct (list_sort_one_kind _ _ _ Hs) as [b Hb].
  rewrite Forall_forall in Hb.
  pose proof (Hb x Hx). pose proof (Hb y Hy). congruence.
Qed.

(** The result is in the order asked for. *)
Lemma list_sort_sorted reverse l l' :
  list_sort key_of reverse l = Some l' →
  StronglySorted
    (λ x y, if reverse then key_le (key_of y) (key_of x)
            else key_le (key_of x) (key_of y)) l'.
Proof.
  unfold list_sort. destruct reverse.
  - destruct (sort_asc key_of (rev l)) as [s|] eqn:Hs; simpl; [| done].
    intros [= <-]. apply sort_asc_sorted in Hs.
    by apply StronglySorted_rev_flip in Hs.
  - apply sort_asc_sorted.
Qed.
End list_sort_facts.

(** ** The filter *)

Lemma prefix_occurs q s :
  String.prefix q s = true ↔ ∃ post, s = q +:+ post.
Proof.
  revert s. induction q as [|c q IH]; intros [|c' s]; simpl.
  - split; [intros _; by exists "" | done].
  - split; [intros _; by exists (String c' s) | done].
  - split; [done | by intros [? [=]]].
  - destruct (ascii_dec c c') as [<-|Hne].
    + rewrite IH. split; intros [post H]; exists post.
      * by rewrite app_cons, <- H.
      * rewrite app_cons in H. by injection H.
    + split; [done |]. intros [post H]. rewrite app_cons in H.
      injection H as H _. congruence.
Qed.

(** [in] is the occurrence test. *)
Lemma py_in_occurs q s : py_in q s = true ↔ occurs q s.
Proof.
  induction s as [|c s IH].
  - cbn [py_in]. rewrite orb_false_r, prefix_occurs. split.
    + intros [post H]. by exists "", post.
    + intros ([|c pre] & post & H); [by exists post |].
      by rewrite app_cons in H.
  - cbn [py_in]. rewrite orb_true_iff, IH, prefix_occurs. split.
    + intros [[post H] | (pre & post & H)].
      * by exists "", post.
      * exists (String c pre), post. by rewrite app_cons, <- H.
    + intros ([|c' pre] & post & H).
      * left. by exists post.
      * right. rewrite app_cons in H. injection H as _ H.
        by exists pre, post.
Qed.

Lemma is_space_lower c : is_space (lower_char c) = is_space c.
Proof. by destruct c as [[] [] [] [] [] [] [] []]. Qed.

Lemma lower_lstrip s :
  lower (lstrip is_space s) = lstrip is_space (lower s).
Proof.
  induction s as [|c s IH]; simpl; [done |].
  rewrite is_space_lower. by destruct (is_space c).
Qed.

Lemma lower_rstrip s :
  lower (rstrip is_space s) = rstrip is_space (lower s).
Proof.
  induction s as [|c s IH]; simpl; [done |].
  rewrite <- IH, is_space_lower.
  destruct (rstrip is_space s); simpl; [by destruct (is_space c) | done].
Qed.

(** Lower-casing and stripping commute. *)
Lemma lower_strip s : lower (strip s) = strip (lower s).
Proof. unfold strip. by rewrite lower_rstrip, lower_lstrip. Qed.

Lemma lower_nonempty s : nonempty (lower s) = nonempty s.
Proof. by destruct s. Qed.

Lemma nonempty_false s : nonempty s = false ↔ s = "".
Proof. by destruct s. Qed.

(** The loop keeps, in order, the rows of the mods that pass. *)
Lemma filter_loop_spec q l acc :
  filter_loop q l acc = acc ++ map row_of (List.filter (shown q) l).
Proof.
  revert acc. induction l as [|m l IH]; intros acc; simpl.
  - by rewrite app_nil_r.
  - rewrite IH. destruct (shown q m); [| done].
    by rewrite <- app_assoc.
Qed.

(** What passes the filter, in the words of the specification. *)
Lemma shown_spec text m :
  shown (query_of text) m = true ↔
  strip text = ""
  ∨ occurs_ci (strip text) (name m)
  ∨ occurs_ci (strip text) (modid m)
  ∨ occurs_ci (strip text) (workshopid m).
Proof.
  unfold shown, query_of, occurs_ci. rewrite <- lower_strip.
  rewrite !orb_true_iff, negb_true_iff, lower_nonempty, nonempty_false,
    !py_in_occurs.
  tauto.
Qed.

(** C7, as stated, fails: the query text [ x], with its leading blank,
    occurs in no field of the one mod, yet the mod is shown. *)
Lemma filter_raw_query_counterexample :
  tree (scanned [Mod "x" "y" "z"] " x") = [("x", "y", "z")]
  ∧ claimed_filter " x" [Mod "x" "y" "z"] = []
  ∧ ¬ (∀ l text, tree (scanned l text) = claimed_filter text l).
Proof.
  split_and!; [by vm_compute | by vm_compute |].
  intros H. specialize (H [Mod "x" "y" "z"] " x"). vm_compute in H.
  discriminate H.
Qed.

(** C7 (amended).  The filter shows exactly the mods in which the query
    text, stripped of surrounding whitespace, occurs up to case in the
    name, the modid or the workshopid; a text that is empty once stripped
    shows every mod; and the rows are in the order of the scan. *)
Theorem apply_filter_rows st :
  ∃ keep : mod_info → bool,
    (∀ m, keep m = true ↔
          strip (search_var st) = ""
          ∨ occurs_ci (strip (search_var st)) (name m)
          ∨ occurs_ci (strip (search_var st)) (modid m)
          ∨ occurs_ci (strip (search_var st)) (workshopid m))
    ∧ tree (_apply_filter st) = map row_of (List.filter keep (mods st))
    ∧ (strip (search_var st) = "" →
       tree (_apply_filter st) = map row_of (mods st)).
Proof.
  exists (shown (query_of (search_var st))).
  split_and!; [apply shown_spec | apply (filter_loop_spec _ _ []) |].
  intros Hq. cbn [_apply_filter tree]. rewrite filter_loop_spec.
  cbn [app]. f_equal. apply forallb_filter_id, forallb_forall.
  intros m _. apply shown_spec. by left.
Qed.

Lemma apply_filter_frame st :
  mods (_apply_filter st) = mods st
  ∧ search_var (_apply_filter st) = search_var st
  ∧ _sort_dir (_apply_filter st) = _sort_dir st.
Proof. done. Qed.

(** ** The column sort *)

Lemma column_indices_lookup col ix :
  column_indices !! col = Some ix →
  (col = "Name" ∧ ix = 0) ∨ (col = "ModID" ∧ ix = 1)
  ∨ (col = "WorkshopID" ∧ ix = 2).
Proof.
  unfold column_indices. intros H.
  repeat (apply lookup_insert_Some in H as [[<- <-] | [_ H]]; [tauto |]).
  by rewrite lookup_empty in H.
Qed.

Lemma column_indices_workshopid : column_indices !! "WorkshopID" = Some 2.
Proof. by vm_compute. Qed.

(** [_sort_by] writes the tree and the directions only, and writes
    nothing when it raises. *)
Lemma sort_by_frame col st :
  mods (_sort_by col st).2 = mods st
  ∧ search_var (_sort_by col st).2 = search_var st
  ∧ ((_sort_by col st).1 ≠ None → (_sort_by col st).2 = st).
Proof.
  unfold _sort_by. destruct (tree st) as [|r l]; [done |].
  destruct (column_indices !! col) as [ix|]; [| done].
  by destruct (list_sort _ _ _).
Qed.

(** C10.  With no row displayed, activating a column sort changes
    nothing and raises nothing: rows and directions stay as they were. *)
Theorem sort_by_empty_view col st :
  tree st = [] → _sort_by col st = (None, st).
Proof. intros H. unfold _sort_by. by rewrite H. Qed.

Lemma sort_by_empty_view_witness :
  _sort_by "Name" (scanned mods_names "no such mod")
  = (None, scanned mods_names "no such mod").
Proof.
  apply (sort_by_empty_view "Name" (scanned mods_names "no such mod")).
  vm_compute. reflexivity.
Defined.

(** A successful activation on a non-empty view: the rows are permuted
    into the order of the column, in the remembered direction, and the
    direction of that column alone is flipped. *)
Lemma sort_by_ok col ix st st1 :
  column_indices !! col = Some ix →
  tree st ≠ [] →
  _sort_by col st = (None, st1) →
  list_sort (sort_key ix) (direction col st) (tree st) = Some (tree st1)
  ∧ mods st1 = mods st ∧ search_var st1 = search_var st
  ∧ _sort_dir st1 = <[col := negb (direction col st)]> (_sort_dir st).
Proof.
  intros Hix Hne. unfold _sort_by, direction.
  destruct (tree st) as [|r l]; [done |]. rewrite Hix.
  destruct (list_sort _ _ _) as [items'|]; [| done].
  by intros [= <-].
Qed.

Lemma sort_by_run col ix st items' :
  column_indices !! col = Some ix →
  tree st ≠ [] →
  list_sort (sort_key ix) (direction col st) (tree st) = Some items' →
  _sort_by col st
  = (None, App (mods st) (search_var st) items'
               (<[col := negb (direction col st)]> (_sort_dir st))).
Proof.
  intros Hix Hne. unfold _sort_by, direction.
  destruct (tree st) as [|r l]; [done |]. rewrite Hix.
  by intros ->.
Qed.

Lemma StronglySorted_Forall_impl {A} (P : A -> Prop) (R R' : A -> A -> Prop) l :
  (∀ x y, P x → P y → R x y → R' x y) →
  Forall P l → StronglySorted R l → StronglySorted R' l.
Proof.
  intros HR HP. induction 1 as [|x l Hl IH Hx]; [constructor |].
  apply Forall_cons in HP as [Px HP]. constructor; [by apply IH |].
  rewrite Forall_forall in *. intros y Hy. apply HR; auto.
Qed.

(** C6.  When every displayed workshopid parses as an integer and the
    WorkshopID column is due to sort ascending, the activation succeeds
    and leaves the same rows ordered by integer value; the ids 10, 2, 1
    come out as 1, 2, 10. *)
Theorem sort_by_workshopid_numeric st :
  Forall (λ r, is_Some (py_int (column 2 r))) (tree st) →
  direction "WorkshopID" st = false →
  (∃ st', _sort_by "WorkshopID" st = (None, st')
     ∧ tree st' ≡ₚ tree st
     ∧ StronglySorted
         (λ r1 r2, ∃ z1 z2, py_int (column 2 r1) = Some z1
                            ∧ py_int (column 2 r2) = Some z2
                            ∧ (z1 ≤ z2)%Z) (tree st'))
  ∧ tree (_sort_by "WorkshopID" (scanned mods_numeric "")).2
    = [("c", "z", "1"); ("b", "y", "2"); ("a", "x", "10")].
Proof.
  intros Hint Hdir. split; [| by vm_compute].
  destruct (decide (tree st = [])) as [Hnil | Hne].
  { exists st. unfold _sort_by. rewrite Hnil.
    split_and!; [done | done | constructor]. }
  assert (Forall (λ r, is_int (sort_key 2 r) = true) (tree st)) as Hkind.
  { eapply Forall_impl; [exact Hint |]. cbn beta. intros r [z Hz].
    unfold sort_key. cbn [Nat.eqb]. by rewrite Hz. }
  destruct (list_sort_Some (sort_key 2) false true _ Hkind) as [items' Hs].
  eexists. split_and!.
  - apply (sort_by_run _ 2); [apply column_indices_workshopid | done |].
    rewrite Hdir. exact Hs.
  - cbn [tree]. symmetry. by eapply list_sort_perm.
  - cbn [tree]. pose proof (list_sort_sorted _ _ _ _ Hs) as Hsorted.
    eapply (StronglySorted_Forall_impl
              (λ r, is_Some (py_int (column 2 r)))); [| | exact Hsorted].
    + cbn beta. intros r1 r2 [z1 H1] [z2 H2]. unfold sort_key.
      cbn [Nat.eqb]. rewrite H1, H2. intros Hle%key_le_int. eauto.
    + by rewrite <- (list_sort_perm _ _ _ _ Hs).
Qed.

Lemma sort_by_workshopid_numeric_witness :
  (∃ st', _sort_by "WorkshopID" (scanned mods_numeric "") = (None, st')
     ∧ tree st' ≡ₚ tree (scanned mods_numeric "")
     ∧ StronglySorted
         (λ r1 r2, ∃ z1 z2, py_int (column 2 r1) = Some z1
                            ∧ py_int (column 2 r2) = Some z2
                            ∧ (z1 ≤ z2)%Z) (tree st'))
  ∧ tree (_sort_by "WorkshopID" (scanned mods_numeric "")).2
    = [("c", "z", "1"); ("b", "y", "2"); ("a", "x", "10")].
Proof.
  apply (sort_by_workshopid_numeric (scanned mods_numeric "")).
  - assert (tree (scanned mods_numeric "")
            = [("a", "x", "10"); ("b", "y", "2"); ("c", "z", "1")]) as ->
      by (vm_compute; reflexivity).
    repeat constructor; cbn [column];
      [exists 10%Z | exists 2%Z | exists 1%Z]; vm_compute; reflexivity.
  - vm_compute. reflexivity.
Defined.

(** An integer workshopid next to one that is not: the activation of the
    WorkshopID column raises [TypeError] and changes nothing. *)
Lemma sort_by_workshopid_mixed st r1 r2 :
  r1 ∈ tree st → r2 ∈ tree st →
  is_Some (py_int (column 2 r1)) → py_int (column 2 r2) = None →
  _sort_by "WorkshopID" st = (Some TypeError, st).
Proof.
  intros H1 H2 [z Hz] Hnone. unfold _sort_by.
  destruct (tree st) as [|r l] eqn:Htree; [by apply elem_of_nil in H1 |].
  rewrite column_indices_workshopid.
  rewrite (list_sort_mixed (sort_key 2) _ _ r1 r2); [done | done | done | |].
  - unfold sort_key. cbn [Nat.eqb]. by rewrite Hz.
  - unfold sort_key. cbn [Nat.eqb]. by rewrite Hnone.
Qed.

(** C5 fails on the code: with the workshopids 10 and abc displayed, the
    keys are the integer 10 and the string abc, their comparison raises
    [TypeError], and the activation ends there: the rows are not sorted
    and the direction is not toggled. *)
Theorem sort_by_workshopid_mixed_raises :
  tree (scanned mods_mixed "") = [("a", "x", "10"); ("b", "y", "abc")]
  ∧ _sort_by "WorkshopID" (scanned mods_mixed "")
    = (Some TypeError, scanned mods_mixed "").
Proof. split; by vm_compute. Qed.

(** C4, as stated, fails: the scan order b, a, c becomes a, b, c on the
    first activation of the Name column and c, b, a on the second, which
    is not the order before the first activation. *)
Lemma resort_order_counterexample :
  tree (scanned mods_names "")
  = [("b", "x", "1"); ("a", "y", "2"); ("c", "z", "3")]
  ∧ tree (_sort_by "Name" (scanned mods_names "")).2
    = [("a", "y", "2"); ("b", "x", "1"); ("c", "z", "3")]
  ∧ tree (_sort_by "Name" (_sort_by "Name" (scanned mods_names "")).2).2
    = [("c", "z", "3"); ("b", "x", "1"); ("a", "y", "2")]
  ∧ tree (_sort_by "Name" (_sort_by "Name" (scanned mods_names "")).2).2
    ≠ tree (scanned mods_names "").
Proof. split_and!; by vm_compute. Qed.

(** C4 (amended).  Two successive activations of the same column on a
    non-empty view, the first of which succeeds: the second succeeds too;
    the direction of the column is flipped by the first and flipped back
    by the second, the directions of the other columns are untouched; the
    rows are the same rows, left by the first activation in the order of
    the column in the remembered direction and by the second in the
    opposite direction, which is not in general the order they had before
    the first. *)
Theorem sort_by_twice col ix st st1 :
  column_indices !! col = Some ix →
  tree st ≠ [] →
  _sort_by col st = (None, st1) →
  ∃ st2,
    _sort_by col st1 = (None, st2)
    ∧ direction col st1 = negb (direction col st)
    ∧ direction col st2 = direction col st
    ∧ (∀ c, c ≠ col → direction c st2 = direction c st)
    ∧ tree st2 ≡ₚ tree st
    ∧ StronglySorted (ordered (direction col st) ix) (tree st1)
    ∧ StronglySorted (ordered (negb (direction col st)) ix) (tree st2).
Proof.
  intros Hix Hne Hrun.
  destruct (sort_by_ok _ _ _ _ Hix Hne Hrun) as (Hs & Hmods & Hsearch & Hdir).
  pose proof (list_sort_perm _ _ _ _ Hs) as Hperm.
  assert (tree st1 ≠ []) as Hne1.
  { intros Hnil. rewrite Hnil in Hperm. by apply Permutation_nil_r in Hperm. }
  assert (direction col st1 = negb (direction col st)) as Hd1.
  { unfold direction at 1. by rewrite Hdir, lookup_insert_eq. }
  destruct (list_sort_one_kind _ _ _ _ Hs) as [b Hb]. rewrite Hperm in Hb.
  destruct (list_sort_Some (sort_key ix) (direction col st1) b _ Hb)
    as [items2 Hs2].
  pose proof (sort_by_run _ _ _ _ Hix Hne1 Hs2) as Hrun2.
  eexists. split; [exact Hrun2 |]. cbn [tree].
  split_and!.
  - done.
  - unfold direction at 1. cbn [_sort_dir].
    rewrite lookup_insert_eq, Hd1. cbn [default]. apply negb_involutive.
  - intros c Hc. unfold direction. cbn [_sort_dir].
    by rewrite Hdir, !lookup_insert_ne.
  - rewrite Hperm. symmetry. by eapply list_sort_perm.
  - by apply list_sort_sorted in Hs.
  - rewrite <- Hd1. by apply list_sort_sorted in Hs2.
Qed.

Lemma sort_by_twice_witness :
  ∃ st2,
    _sort_by "Name" (_sort_by "Name" (scanned mods_names "")).2 = (None, st2)
    ∧ direction "Name" (_sort_by "Name" (scanned mods_names "")).2
      = negb (direction "Name" (scanned mods_names ""))
    ∧ direction "Name" st2 = direction "Name" (scanned mods_names "")
    ∧ (∀ c, c ≠ "Name" →
            direction c st2 = direction c (scanned mods_names ""))
    ∧ tree st2 ≡ₚ tree (scanned mods_names "")
    ∧ StronglySorted (ordered (direction "Name" (scanned mods_names "")) 0)
        (tree (_sort_by "Name" (scanned mods_names "")).2)
    ∧ StronglySorted
        (ordered (negb (direction "Name" (scanned mods_names ""))) 0)
        (tree st2).
Proof.
  apply (sort_by_twice "Name" 0 (scanned mods_names "")
           (_sort_by "Name" (scanned mods_names "")).2).
  - vm_compute. reflexivity.
  - vm_compute. discriminate.
  - vm_compute. reflexivity.
Defined.

(** ** The export *)

Lemma exported_shown q m : exported q m = shown q m.
Proof. reflexivity. Qed.

Lemma fields_row_of m : fields (row_of m) = [name m; modid m; workshopid m].
Proof. reflexivity. Qed.

Lemma export_csv_rows file_path st :
  nonempty file_path = true → mods st ≠ [] →
  export_csv file_path Written st
  = Some (csv_header :: map fields (tree (_apply_filter st))).
Proof.
  intros Hpath Hmods. unfold export_csv.
  destruct (mods st) as [|m l] eqn:Hl; [done |].
  rewrite Hpath. cbn [negb]. do 2 f_equal.
  cbn [_apply_filter tree]. rewrite Hl, filter_loop_spec. cbn [app].
  rewrite map_map. apply map_ext_in. intros m' Hm'.
  by rewrite fields_row_of.
Qed.

(** Whatever happens to the file, the rows the writer took are the
    first rows of the header followed by the filtered rows. *)
Lemma export_csv_prefix file_path io st rows :
  export_csv file_path io st = Some rows →
  rows `prefix_of` csv_header :: map fields (tree (_apply_filter st)).
Proof.
  unfold export_csv. destruct (mods st) as [|m l] eqn:Hl; [done |].
  destruct (nonempty file_path); [| done]. cbn [negb].
  assert (map (λ m0, [name m0; modid m0; workshopid m0])
            (List.filter (exported (strip (lower (search_var st)))) (m :: l))
          = map fields (tree (_apply_filter st))) as ->.
  { cbn [_apply_filter tree]. rewrite Hl, filter_loop_spec. cbn [app].
    rewrite map_map. apply map_ext_in. intros m' Hm'.
    by rewrite fields_row_of. }
  destruct io as [| e | e k]; [| done |]; intros [= <-].
  - done.
  - apply prefix_take.
Qed.

(** C9.  The condition of the export is the condition of the filter.
    So, when a file is chosen and written without an error, what is
    exported after the header is the filtered rows in scan order (with no
    mods there is nothing to filter and nothing is written); when [open]
    or the writer raises, what was written is a beginning of that; and in
    every case a column sort of the view, however it ends, does not
    change what is exported. *)
Theorem export_csv_follows_filter file_path io col st :
  nonempty file_path = true →
  (∀ q m, exported q m = shown q m)
  ∧ (io = Written →
     data_rows (export_csv file_path io st)
     = map fields (tree (_apply_filter st))
     ∧ (mods st ≠ [] →
        export_csv file_path io st
        = Some (csv_header :: map fields (tree (_apply_filter st)))))
  ∧ (∀ rows, export_csv file_path io st = Some rows →
       rows `prefix_of` csv_header :: map fields (tree (_apply_filter st)))
  ∧ export_csv file_path io (_sort_by col st).2 = export_csv file_path io st
  ∧ export_csv file_path io (_sort_by col (_apply_filter st)).2
    = export_csv file_path io st.
Proof.
  intros Hpath.
  assert (∀ st', mods st' = mods st → search_var st' = search_var st →
                 export_csv file_path io st' = export_csv file_path io st)
    as Hsame.
  { intros st' Hm Hq. unfold export_csv. by rewrite Hm, Hq. }
  split_and!.
  - apply exported_shown.
  - intros ->. split.
    + destruct (decide (mods st = [])) as [Hnil | Hne].
      * unfold export_csv. cbn [_apply_filter tree]. by rewrite Hnil.
      * by rewrite export_csv_rows.
    + by apply export_csv_rows.
  - intros rows. apply export_csv_prefix.
  - apply Hsame; apply sort_by_frame.
  - apply Hsame.
    + by destruct (sort_by_frame col (_apply_filter st)) as (-> & _ & _).
    + by destruct (sort_by_frame col (_apply_filter st)) as (_ & -> & _).
Qed.

Lemma export_csv_follows_filter_witness :
  (∀ q m, exported q m = shown q m)
  ∧ (Written = Written →
     data_rows (export_csv "pz_mods.csv" Written (scanned mods_names ""))
     = map fields (tree (_apply_filter (scanned mods_names "")))
     ∧ (mods (scanned mods_names "") ≠ [] →
        export_csv "pz_mods.csv" Written (scanned mods_names "")
        = Some (csv_header
                  :: map fields
                       (tree (_apply_filter (scanned mods_names ""))))))
  ∧ (∀ rows,
       export_csv "pz_mods.csv" Written (scanned mods_names "")
       = Some rows →
       rows `prefix_of`
         csv_header
         :: map fields (tree (_apply_filter (scanned mods_names ""))))
  ∧ export_csv "pz_mods.csv" Written
      (_sort_by "Name" (scanned mods_names "")).2
    = export_csv "pz_mods.csv" Written (scanned mods_names "")
  ∧ export_csv "pz_mods.csv" Written
      (_sort_by "Name" (_apply_filter (scanned mods_names ""))).2
    = export_csv "pz_mods.csv" Written (scanned mods_names "").
Proof.
  apply (export_csv_follows_filter "pz_mods.csv" Written "Name"
           (scanned mods_names "")).
  vm_compute. reflexivity.
Defined.

(** The view of the witness has three rows, which the sort by name
    reorders, and the export keeps the scan order. *)
Example export_after_sort :
  tree (_sort_by "Name" (scanned mods_names "")).2
  = [("a", "y", "2"); ("b", "x", "1"); ("c", "z", "3")]
  ∧ export_csv "pz_mods.csv" Written
      (_sort_by "Name" (scanned mods_names "")).2
    = Some [csv_header; ["b"; "x"; "1"]; ["a"; "y"; "2"]; ["c"; "z"; "3"]]
  ∧ export_csv "pz_mods.csv" (OpenFails WritePermissionError)
      (scanned mods_names "")
    = None
  ∧ export_csv "pz_mods.csv" (WriteFails WriteOSError 2)
      (scanned mods_names "")
    = Some [csv_header; ["b"; "x"; "1"]].
Proof. split_and!; by vm_compute. Qed.

(** * Further properties *)

(** ** The parser *)

(** X1.  The name of a record is the value of the first name line, among the
    first 500 lines, with a non-empty value. *)
Theorem read_mod_info_name f wid r :
  _read_mod_info (Some f) wid = Some r →
  ∃ pre raw post,
    take 500 f = pre ++ raw :: post
    ∧ name_of_line raw = Some (name r)
    ∧ Forall (λ l, name_of_line l = None) pre.
Proof.
  intros (n & m & rest & Hrun & Hn & Hm & -> & -> & _)%read_mod_info_inv.
  destruct (read_lines_name_origin f 1 None None eq_refl)
    as [[_ Hno] | (pre & raw & post & Htake & Hpre & Hraw & _)];
    rewrite Hrun in *; cbn [fst snd] in *; [congruence |].
  by exists pre, raw, post.
Qed.

Lemma read_mod_info_name_witness :
  ∃ pre raw post,
    take 500 file_segment = pre ++ raw :: post
    ∧ name_of_line raw = Some (name (Mod "n" "b" "w"))
    ∧ Forall (λ l, name_of_line l = None) pre.
Proof.
  apply (read_mod_info_name file_segment "w" (Mod "n" "b" "w")).
  vm_compute. reflexivity.
Defined.

Lemma ignored_key_value raw : ignored raw = true → key_value raw = None.
Proof. unfold ignored, key_value. by intros ->. Qed.

Lemma read_lines_drop_ignored f n n' a b :
  n + length f ≤ 501 → n' ≤ n →
  (read_lines n' (List.filter (λ l, negb (ignored l)) f) a b).1
  = (read_lines n f a b).1.
Proof.
  revert n n' a b. induction f as [|raw f' IH]; intros n n' a b Hlen Hn;
    [done |].
  cbn [length] in Hlen. cbn [List.filter].
  rewrite (read_lines_cons n).
  assert ((500 <? n) = false) as -> by (apply Nat.ltb_ge; lia).
  destruct (ignored raw) eqn:Hraw; cbn [negb].
  - rewrite (ignored_key_value _ Hraw). apply IH; lia.
  - rewrite (read_lines_cons n').
    assert ((500 <? n') = false) as -> by (apply Nat.ltb_ge; lia).
    destruct (key_value raw) as [[k v]|]; [| apply IH; lia].
    destruct (assign k v a b) as [x y].
    destruct (both x y); [done | apply IH; lia].
Qed.

(** X2.  In a file of at most 500 lines, the lines the loop passes over
    (blank, without an equals sign, starting with [#] or [//]) have no
    influence: the record is the one of the file without them. *)
Theorem read_mod_info_ignored_lines f wid :
  length f ≤ 500 →
  _read_mod_info (Some (List.filter (λ l, negb (ignored l)) f)) wid
  = _read_mod_info (Some f) wid.
Proof.
  intros Hlen. unfold _read_mod_info.
  pose proof (read_lines_drop_ignored f 1 1 None None
                ltac:(lia) ltac:(lia)) as H.
  destruct (read_lines 1 (List.filter _ f) None None) as [[n m] rest].
  destruct (read_lines 1 f None None) as [[n' m'] rest'].
  cbn [fst] in H. by injection H as -> ->.
Qed.

Lemma read_mod_info_ignored_lines_witness :
  _read_mod_info
    (Some (List.filter (λ l, negb (ignored l)) file_commented)) "A"
  = _read_mod_info (Some file_commented) "A".
Proof.
  apply (read_mod_info_ignored_lines file_commented "A").
  vm_compute. lia.
Defined.

Lemma read_lines_prefix pre post n a b a' b' rest :
  both a b = false →
  read_lines n pre a b = (a', b', rest) → both a' b' = true →
  (read_lines n (pre ++ post) a b).1 = (a', b').
Proof.
  revert n a b. induction pre as [|raw pre' IH]; intros n a b H0.
  { intros [= <- <- _]. congruence. }
  cbn [app]. rewrite !read_lines_cons.
  destruct (500 <? n); [intros [= <- <- _]; congruence |].
  destruct (key_value raw) as [[k v]|]; [| by apply IH].
  destruct (assign k v a b) as [x y]. destruct (both x y) eqn:Hxy.
  - by intros [= <- <- _].
  - by apply IH.
Qed.

(** X3.  Once a file gives a record, whatever is appended to it is never
    looked at: the record stays the same. *)
Theorem read_mod_info_append pre post wid r :
  _read_mod_info (Some pre) wid = Some r →
  _read_mod_info (Some (pre ++ post)) wid = Some r.
Proof.
  unfold _read_mod_info.
  destruct (read_lines 1 pre None None) as [[n m] rest] eqn:Hrun.
  destruct (truthy n && truthy m) eqn:Hboth; [| done].
  pose proof (read_lines_prefix pre post 1 None None n m rest
                eq_refl Hrun Hboth) as H.
  destruct (read_lines 1 (pre ++ post) None None) as [[n' m'] rest'].
  cbn [fst] in H. injection H as -> ->. by rewrite Hboth.
Qed.

Lemma read_mod_info_append_witness :
  _read_mod_info (Some (file_basic ++ file_segment)) "A"
  = Some (Mod "Test Mod" "123456" "A").
Proof.
  apply (read_mod_info_append file_basic file_segment "A").
  vm_compute. reflexivity.
Defined.

Lemma py_in_char_app c (a b : string) :
  py_in (String c "") (a +:+ b)
  = py_in (String c "") a || py_in (String c "") b.
Proof.
  induction a as [|x a IH].
  - rewrite app_nil. by destruct b.
  - rewrite app_cons, !py_in_char, IH. by rewrite orb_assoc.
Qed.

Lemma trimmed_no_char p s t c :
  trimmed p s t → py_in (String c "") s = false →
  py_in (String c "") t = false.
Proof.
  intros (pre & post & -> & _). rewrite !py_in_char_app.
  intros H. apply orb_false_iff in H as [_ H].
  by apply orb_false_iff in H as [H _].
Qed.

Lemma name_of_line_shape raw v :
  name_of_line raw = Some v → ∃ v0, v = clean_value v0.
Proof.
  unfold name_of_line, key_value. destruct (skipped _); [done |].
  destruct (split1 _ _) as [|k [|v0 [|? ?]]]; try done.
  destruct (_ && _); [| done]. intros [= <-]. by exists v0.
Qed.

Lemma modid_of_line_shape raw s :
  modid_of_line raw = Some s → ∃ v, s = first_segment v.
Proof.
  unfold modid_of_line. destruct (id_value_of_line raw) as [v|]; [| done].
  destruct (nonempty _); [| done]. intros [= <-]. by exists v.
Qed.

(** X4.  The shape of a record: the workshopid is the one handed in; the
    name is not empty and neither starts nor ends with a single quote;
    the modid is not empty, holds no semicolon and neither starts nor
    ends with whitespace. *)
Theorem read_mod_info_shape f wid r :
  _read_mod_info (Some f) wid = Some r →
  workshopid r = wid
  ∧ name r ≠ ""
  ∧ (∀ c, first_char (name r) = Some c ∨ last_char (name r) = Some c →
          c ≠ "'"%char)
  ∧ modid r ≠ ""
  ∧ py_in ";" (modid r) = false
  ∧ (∀ c, first_char (modid r) = Some c ∨ last_char (modid r) = Some c →
          is_space c = false).
Proof.
  intros (Hw & Hn & Hm & Hname & Hmodid)%read_mod_info_both_fields.
  apply Exists_exists in Hname as (l1 & _ & [v1 Hv1]%name_of_line_shape).
  apply Exists_exists in Hmodid as (l2 & _ & [v2 Hv2]%modid_of_line_shape).
  split_and!; [done | done | | done | |].
  - rewrite Hv1. unfold clean_value.
    destruct (strip_char_trimmed "'" (strip_char dquote (strip v1)))
      as (_ & _ & _ & _ & _ & Hfirst & Hlast).
    intros c [Hc | Hc] ->; [apply Hfirst in Hc | apply Hlast in Hc];
      by rewrite Ascii.eqb_refl in Hc.
  - rewrite Hv2. unfold first_segment.
    eapply trimmed_no_char; [apply strip_trimmed |].
    destruct (split_hd_spec ";" v2) as [[Hin ->] | (v & _ & Hin)]; done.
  - rewrite Hv2. unfold first_segment.
    destruct (strip_trimmed (hd "" (split ";" v2)))
      as (_ & _ & _ & _ & _ & Hfirst & Hlast).
    intros c [Hc | Hc]; auto.
Qed.

Lemma read_mod_info_shape_witness :
  workshopid (Mod "x" "a" "w") = "w"
  ∧ name (Mod "x" "a" "w") ≠ ""
  ∧ (∀ c, first_char (name (Mod "x" "a" "w")) = Some c
          ∨ last_char (name (Mod "x" "a" "w")) = Some c →
          c ≠ "'"%char)
  ∧ modid (Mod "x" "a" "w") ≠ ""
  ∧ py_in ";" (modid (Mod "x" "a" "w")) = false
  ∧ (∀ c, first_char (modid (Mod "x" "a" "w")) = Some c
          ∨ last_char (modid (Mod "x" "a" "w")) = Some c →
          is_space c = false).
Proof.
  apply (read_mod_info_shape file_quoted "w" (Mod "x" "a" "w")).
  vm_compute. reflexivity.
Defined.

(** ** The scan *)

(** The loop appends, in the order of the listing, the records of the
    directories that parse, and counts directories and records. *)
Lemma scan_loop_spec entries l s f :
  scan_loop entries l s f
  = (l ++ omap (λ e, _read_mod_info (entry_file e) (entry_name e))
            (List.filter entry_is_dir entries),
     s + length (List.filter entry_is_dir entries),
     f + length (omap (λ e, _read_mod_info (entry_file e) (entry_name e))
                   (List.filter entry_is_dir entries))).
Proof.
  revert l s f. induction entries as [|e rest IH]; intros l s f.
  - cbn. by rewrite app_nil_r, !Nat.add_0_r.
  - cbn [scan_loop List.filter]. destruct (entry_is_dir e); [| apply IH].
    cbn [omap list_omap].
    destruct (_read_mod_info (entry_file e) (entry_name e)) as [m|];
      rewrite IH; cbn [length].
    + rewrite <- app_assoc. cbn [app].
      rewrite !Nat.add_succ_r. reflexivity.
    + rewrite !Nat.add_succ_r. reflexivity.
Qed.

Lemma omap_length_le {A B} (g : A -> option B) (l : list A) :
  length (omap g l) ≤ length l.
Proof.
  induction l as [|x l IH]; cbn; [lia |]. destruct (g x); cbn; lia.
Qed.

(** X5.  A scan that is refused, because the folder box is blank or does not
    name a directory, shows an error and leaves mods, view and sort
    directions as they were; no status with counts is set. *)
Theorem scan_mods_refused mod_folder isdir entries failure st :
  strip mod_folder = "" ∨ isdir = false →
  (scan_mods mod_folder isdir entries failure st).2 = st
  ∧ scan_status (scan_mods mod_folder isdir entries failure st).1 = None
  ∧ is_Some (scan_dialog (scan_mods mod_folder isdir entries failure st).1).
Proof.
  unfold scan_mods. intros [-> | ->].
  - cbn. eauto.
  - destruct (nonempty (strip mod_folder)); cbn; eauto.
Qed.

Lemma scan_mods_refused_witness :
  (scan_mods "   " true sample_entries None (scanned mods_names "")).2
  = scanned mods_names ""
  ∧ scan_status
      (scan_mods "   " true sample_entries None (scanned mods_names "")).1
    = None
  ∧ is_Some
      (scan_dialog
         (scan_mods "   " true sample_entries None
            (scanned mods_names "")).1).
Proof.
  apply (scan_mods_refused "   " true sample_entries None
           (scanned mods_names "")).
  left. vm_compute. reflexivity.
Defined.

(** X6.  A scan that runs replaces the mods by the records of the directories
    of the listing that parse, in the order of the listing, whatever was
    there before and whether or not the listing ended in an error; the
    status counts the records and the directories; the search text and
    the sort directions are kept, and the view shows the new mods through
    the current search text. *)
Theorem scan_mods_result mod_folder entries failure st :
  strip mod_folder ≠ "" →
  let out := scan_mods mod_folder true entries failure st in
  let dirs := List.filter entry_is_dir entries in
  mods out.2
  = omap (λ e, _read_mod_info (entry_file e) (entry_name e)) dirs
  ∧ scan_status out.1 = Some (length (mods out.2), length dirs)
  ∧ length (mods out.2) ≤ length dirs
  ∧ search_var out.2 = search_var st
  ∧ _sort_dir out.2 = _sort_dir st
  ∧ tree out.2 = filtered_rows out.2.
Proof.
  intros Hpath. cbn zeta. unfold scan_mods.
  destruct (nonempty (strip mod_folder)) eqn:Hne;
    [| by apply nonempty_false in Hne].
  cbn [negb]. rewrite scan_loop_spec. cbn [app Nat.add fst snd].
  cbn [_apply_filter mods search_var _sort_dir tree scan_status].
  split_and!; try done.
  apply omap_length_le.
Qed.

Lemma scan_mods_result_witness :
  let out := scan_mods "mods" true sample_entries (Some OSError)
               (scanned mods_names "") in
  let dirs := List.filter entry_is_dir sample_entries in
  mods out.2
  = omap (λ e, _read_mod_info (entry_file e) (entry_name e)) dirs
  ∧ scan_status out.1 = Some (length (mods out.2), length dirs)
  ∧ length (mods out.2) ≤ length dirs
  ∧ search_var out.2 = search_var (scanned mods_names "")
  ∧ _sort_dir out.2 = _sort_dir (scanned mods_names "")
  ∧ tree out.2 = filtered_rows out.2.
Proof.
  apply (scan_mods_result "mods" sample_entries (Some OSError)
           (scanned mods_names "")).
  vm_compute. discriminate.
Defined.

Lemma scan_mods_ran_mods mod_folder entries failure st :
  strip mod_folder ≠ "" →
  mods (scan_mods mod_folder true entries failure st).2
  = omap (λ e, _read_mod_info (entry_file e) (entry_name e))
      (List.filter entry_is_dir entries).
Proof.
  intros Hpath. unfold scan_mods.
  destruct (nonempty (strip mod_folder)) eqn:Hne;
    [| by apply nonempty_false in Hne].
  cbn [negb]. by rewrite scan_loop_spec.
Qed.

(** X7.  After a scan that ran, every mod comes from a directory of the
    listing that has a [mod.info]: its workshopid is the name of that
    directory, and its name and modid are not empty.  Entries that are
    not directories give nothing. *)
Theorem scan_mods_records mod_folder entries failure st :
  strip mod_folder ≠ "" →
  Forall (λ m, well_formed m
               ∧ ∃ e, e ∈ entries ∧ entry_is_dir e = true
                      ∧ entry_name e = workshopid m
                      ∧ _read_mod_info (entry_file e) (entry_name e)
                        = Some m)
    (mods (scan_mods mod_folder true entries failure st).2).
Proof.
  intros Hpath.
  rewrite (scan_mods_ran_mods _ _ _ _ Hpath).
  apply Forall_forall. intros m (e & He & Hm)%list_elem_of_omap.
  apply list_elem_of_In, filter_In in He as [He Hdir].
  destruct (entry_file e) as [f|] eqn:Hf; [| done].
  destruct (read_mod_info_both_fields _ _ _ Hm) as (Hw & Hn & Hi & _).
  split; [done |]. exists e.
  split_and!; [by apply list_elem_of_In | done | done | by rewrite Hf].
Qed.

Lemma scan_mods_records_witness :
  Forall (λ m, well_formed m
               ∧ ∃ e, e ∈ sample_entries ∧ entry_is_dir e = true
                      ∧ entry_name e = workshopid m
                      ∧ _read_mod_info (entry_file e) (entry_name e)
                        = Some m)
    (mods (scan_mods "mods" true sample_entries None initial).2).
Proof.
  apply (scan_mods_records "mods" sample_entries None initial).
  vm_compute. discriminate.
Defined.

(** ** The view across events *)

Lemma sort_by_perm col st : tree (_sort_by col st).2 ≡ₚ tree st.
Proof.
  unfold _sort_by. destruct (tree st) as [|r l] eqn:Htree;
    [cbn [snd]; by rewrite Htree |].
  destruct (column_indices !! col) as [ix|];
    [| cbn [snd]; by rewrite Htree].
  destruct (list_sort _ _ _) as [items'|] eqn:Hs;
    [| cbn [snd]; by rewrite Htree].
  cbn [snd tree]. symmetry. by eapply list_sort_perm.
Qed.

(** One event.  The rows on display are always the rows some text lets
    through, up to their order; they are those of the text in the box
    when the box was not edited since the last filter pass. *)
Lemma handle_consistent st b e :
  Forall well_formed (mods st) →
  (∃ text, tree st ≡ₚ filter_loop (query_of text) (mods st) []) →
  (b = false → tree st ≡ₚ filtered_rows st) →
  Forall well_formed (mods (handle st e))
  ∧ (∃ text, tree (handle st e)
             ≡ₚ filter_loop (query_of text) (mods (handle st e)) [])
  ∧ (stale_after b e = false →
     tree (handle st e) ≡ₚ filtered_rows (handle st e)).
Proof.
  intros Hmods [text0 Hsome] Hfresh.
  destruct e as [mod_folder isdir entries failure | text | | | col];
    cbn [handle stale_after].
  - unfold scan_mods. destruct (nonempty (strip mod_folder)); [| eauto].
    destruct isdir; [| eauto]. cbn [negb andb]. rewrite scan_loop_spec.
    cbn [app snd]. split_and!; [| by exists (search_var st) | done].
    cbn [_apply_filter mods]. apply Forall_forall.
    intros m (e & _ & Hm)%list_elem_of_omap.
    destruct (entry_file e) as [f|]; [| done].
    by destruct (read_mod_info_both_fields _ _ _ Hm) as (_ & Hn & Hi & _).
  - split_and!; [done | by exists text0 | done].
  - split_and!; [done | by exists (search_var st) | done].
  - split_and!; [done | by exists "" | done].
  - destruct (sort_by_frame col st) as (Hm & Hq & _).
    unfold filtered_rows. rewrite Hm, Hq. split_and!; [done | |].
    + exists text0. by rewrite sort_by_perm.
    + intros Hb. rewrite sort_by_perm. by apply Hfresh.
Qed.

Lemma fold_handle_consistent events st b :
  Forall well_formed (mods st) →
  (∃ text, tree st ≡ₚ filter_loop (query_of text) (mods st) []) →
  (b = false → tree st ≡ₚ filtered_rows st) →
  Forall well_formed (mods (fold_left handle events st))
  ∧ (∃ text, tree (fold_left handle events st)
             ≡ₚ filter_loop (query_of text)
                  (mods (fold_left handle events st)) [])
  ∧ (fold_left stale_after events b = false →
     tree (fold_left handle events st)
     ≡ₚ filtered_rows (fold_left handle events st)).
Proof.
  revert st b. induction events as [|e events IH]; intros st b H1 H2 H3;
    [done |].
  cbn [fold_left].
  destruct (handle_consistent st b e H1 H2 H3) as (H1' & H2' & H3').
  by apply IH.
Qed.

(** X8.  Whatever the user does, in whatever order, every mod held has a
    non-empty name and modid, and the rows on display are, up to their
    order, the rows that some search text lets through: the text the box
    held at the last filter pass.  They are the rows of the text now in
    the box whenever the box was not edited since the last filter pass (a
    key released in the box, Clear, a scan that ran). *)
Theorem run_view_consistent events :
  Forall well_formed (mods (run events))
  ∧ (∃ text, tree (run events)
             ≡ₚ filter_loop (query_of text) (mods (run events)) [])
  ∧ (stale events = false →
     tree (run events) ≡ₚ filtered_rows (run events)).
Proof.
  unfold run, stale. apply fold_handle_consistent.
  - constructor.
  - by exists "".
  - done.
Qed.

(** An edit that no key release follows leaves the old rows on display
    while the text in the box lets none through. *)
Example run_view_stale :
  stale events_edited = true
  ∧ length (tree (run events_edited)) = 2
  ∧ filtered_rows (run events_edited) = [].
Proof. split_and!; by vm_compute. Qed.

(** X9.  When the box was not edited since the last filter pass, a file
    is chosen and the writing goes through, what an export writes after
    the header is what is on display, up to the order of the rows: the
    export is in scan order, the view may be sorted. *)
Theorem run_export_matches_view events file_path :
  nonempty file_path = true →
  stale events = false →
  data_rows (export_csv file_path Written (run events))
  ≡ₚ map fields (tree (run events)).
Proof.
  intros Hpath Hfresh.
  assert (tree (run events) ≡ₚ filtered_rows (run events)) as Hview.
  { unfold run. apply (fold_handle_consistent events initial false);
      [constructor | by exists "" | done | exact Hfresh]. }
  rewrite Hview.
  destruct (decide (mods (run events) = [])) as [Hnil | Hne].
  - unfold export_csv, filtered_rows. by rewrite Hnil.
  - by rewrite export_csv_rows.
Qed.

Lemma run_export_matches_view_witness :
  data_rows (export_csv "pz_mods.csv" Written (run events_sorted))
  ≡ₚ map fields (tree (run events_sorted)).
Proof.
  apply (run_export_matches_view events_sorted "pz_mods.csv").
  - vm_compute. reflexivity.
  - vm_compute. reflexivity.
Defined.

(** In the run of the witness the view holds two rows in descending
    order of modid, and the export writes them in scan order. *)
Example run_export_sorted :
  tree (run events_sorted)
  = [("n", "b", "C"); ("Test Mod", "123456", "A")]
  ∧ data_rows (export_csv "pz_mods.csv" Written (run events_sorted))
    = [["Test Mod"; "123456"; "A"]; ["n"; "b"; "C"]].
Proof. split; by vm_compute. Qed.

(** X10.  Clearing the search shows every mod, in scan order, and keeps the
    sort directions; so does any new search keep them: a filter pass
    undoes the order a sort gave, not the direction it left. *)
Theorem clear_search_shows_all st :
  tree (_clear_search st) = map row_of (mods st)
  ∧ search_var (_clear_search st) = ""
  ∧ _sort_dir (_clear_search st) = _sort_dir st
  ∧ ∀ col text,
      tree (_on_search (set_search text (_sort_by col st).2))
      = tree (_on_search (set_search text st))
      ∧ (tree st ≠ [] → (_sort_by col st).1 = None →
         direction col (_on_search (set_search text (_sort_by col st).2))
         = negb (direction col st)).
Proof.
  split_and!; [| done | done |].
  - cbn [_clear_search set_search _apply_filter tree mods search_var].
    rewrite filter_loop_spec.
    cbn [app]. f_equal. apply forallb_filter_id, forallb_forall.
    by intros m _.
  - intros col text. split.
    + destruct (sort_by_frame col st) as (Hm & _ & _).
      cbn [_on_search set_search _apply_filter tree mods search_var].
      by rewrite Hm.
    + intros Hne Hok. unfold _sort_by, direction in *.
      destruct (tree st) as [|r l]; [done |].
      destruct (column_indices !! col) as [ix|]; [| done].
      destruct (list_sort _ _ _); [| done].
      cbn [snd _on_search set_search _apply_filter _sort_dir].
      by rewrite lookup_insert_eq.
Qed.

(** ** More on the sort *)

Lemma key_eqb_eq a b : key_eqb a b = true ↔ a = b.
Proof.
  destruct a as [x|s], b as [y|t]; simpl; try (split; done).
  - rewrite Z.eqb_eq. split; congruence.
  - rewrite String.eqb_eq. split; congruence.
Qed.

Lemma key_eqb_refl a : key_eqb a a = true.
Proof. by apply key_eqb_eq. Qed.

Lemma key_lt_irrefl a : key_lt a a ≠ Some true.
Proof.
  destruct a as [x|s]; simpl.
  - rewrite Z.ltb_irrefl. done.
  - unfold String.ltb. pose proof (String.compare_antisym s s) as H.
    by destruct (String.compare s s).
Qed.

Lemma key_lt_true_neq a b : key_lt a b = Some true → key_eqb a b = false.
Proof.
  intros H. destruct (key_eqb a b) eqn:E; [| done].
  apply key_eqb_eq in E as ->. by apply key_lt_irrefl in H.
Qed.

Lemma key_le_antisym a b : key_le a b → key_le b a → a = b.
Proof.
  unfold key_le. destruct a as [x|s], b as [y|t]; simpl; try done.
  - intros [= H1] [= H2]. f_equal. lia.
  - unfold String.ltb. rewrite (String.compare_antisym s t).
    destruct (String.compare t s) eqn:E; simpl; try done.
    intros _ _. by apply String.compare_eq_iff in E as ->.
Qed.

(** On two [str] keys the order is the lexicographic one. *)
Lemma key_le_str s t : key_le (KStr s) (KStr t) ↔ String.leb s t = true.
Proof.
  unfold key_le. simpl. unfold String.leb, String.ltb.
  rewrite (String.compare_antisym s t).
  destruct (String.compare t s); simpl; split; congruence.
Qed.

Section stability.
Context {A : Type} (key_of : A -> key) (k : key).

Local Abbreviation with_key := (List.filter (λ y, key_eqb (key_of y) k)).

Lemma insert_with_key x l l' :
  insert key_of x l = Some l' → with_key l' = with_key (x :: l).
Proof.
  revert l'. induction l as [|y l IH]; intros l'; simpl.
  - by intros [= <-].
  - destruct (key_lt (key_of y) (key_of x)) as [[]|] eqn:Hlt; simpl;
      [| | done].
    + destruct (insert key_of x l) as [l''|]; simpl; [| done].
      intros [= <-]. simpl. rewrite (IH l'' eq_refl). simpl.
      destruct (key_eqb (key_of x) k) eqn:Hx; [| done].
      apply key_eqb_eq in Hx as <-.
      by rewrite (key_lt_true_neq _ _ Hlt).
    + by intros [= <-].
Qed.

Lemma sort_asc_with_key l l' :
  sort_asc key_of l = Some l' → with_key l' = with_key l.
Proof.
  revert l'. induction l as [|x l IH]; intros l'; simpl.
  - by intros [= <-].
  - destruct (sort_asc key_of l) as [s|]; simpl; [| done].
    intros H%insert_with_key. rewrite H. simpl. by rewrite (IH s).
Qed.

(** The sort is stable in both directions. *)
Lemma list_sort_with_key reverse l l' :
  list_sort key_of reverse l = Some l' → with_key l' = with_key l.
Proof.
  unfold list_sort. destruct reverse; [| apply sort_asc_with_key].
  destruct (sort_asc key_of (rev l)) as [s|] eqn:Hs; simpl; [| done].
  intros [= <-]. apply sort_asc_with_key in Hs.
  by rewrite filter_rev, Hs, filter_rev, rev_involutive.
Qed.
End stability.

(** Two lists in the same order of keys, with the same elements in the
    same order under each key, are equal. *)
Lemma sorted_stable_unique {A} (key_of : A -> key) (R : key -> key -> Prop)
    (l1 l2 : list A) :
  (∀ a b, R a b → R b a → a = b) →
  StronglySorted (λ x y, R (key_of x) (key_of y)) l1 →
  StronglySorted (λ x y, R (key_of x) (key_of y)) l2 →
  (∀ k, List.filter (λ y, key_eqb (key_of y) k) l1
        = List.filter (λ y, key_eqb (key_of y) k) l2) →
  l1 = l2.
Proof.
  intros Hanti. revert l2.
  induction l1 as [|x t1 IH]; intros l2 Hs1 Hs2 Hk.
  - destruct l2 as [|y t2]; [done |].
    specialize (Hk (key_of y)). simpl in Hk.
    by rewrite key_eqb_refl in Hk.
  - destruct l2 as [|y t2].
    { specialize (Hk (key_of x)). simpl in Hk.
      by rewrite key_eqb_refl in Hk. }
    apply StronglySorted_inv in Hs1 as [Hs1 Hx].
    apply StronglySorted_inv in Hs2 as [Hs2 Hy].
    rewrite Forall_forall in Hx, Hy.
    assert (x = y) as <-.
    { pose proof (Hk (key_of x)) as Hkx. pose proof (Hk (key_of y)) as Hky.
      simpl in Hkx, Hky.
      rewrite key_eqb_refl in Hkx. rewrite key_eqb_refl in Hky.
      destruct (key_eqb (key_of y) (key_of x)) eqn:Hyx;
        [by injection Hkx |].
      destruct (key_eqb (key_of x) (key_of y)) eqn:Hxy;
        [by injection Hky |].
      assert (In x (List.filter (λ z, key_eqb (key_of z) (key_of x)) t2))
        as [Hx2 _]%filter_In by (rewrite <- Hkx; by left).
      assert (In y (List.filter (λ z, key_eqb (key_of z) (key_of y)) t1))
        as [Hy1 _]%filter_In by (rewrite Hky; by left).
      apply list_elem_of_In in Hx2, Hy1.
      pose proof (Hanti _ _ (Hx _ Hy1) (Hy _ Hx2)) as Heq.
      apply key_eqb_eq in Heq. congruence. }
    f_equal. apply IH; [done | done |].
    intros k. specialize (Hk k). simpl in Hk.
    destruct (key_eqb (key_of x) k); [by injection Hk | done].
Qed.

(** X12.  A column sort is stable, ascending or descending: the rows that
    share a key in the sorted column keep the order they had. *)
Theorem sort_by_stable col ix st k :
  column_indices !! col = Some ix →
  (_sort_by col st).1 = None →
  rows_with_key ix k (tree (_sort_by col st).2)
  = rows_with_key ix k (tree st).
Proof.
  intros Hix. unfold _sort_by, rows_with_key.
  destruct (tree st) as [|r l] eqn:Htree; [cbn [snd]; by rewrite Htree |].
  rewrite Hix.
  destruct (list_sort _ _ _) as [items'|] eqn:Hs; [| done].
  intros _. cbn [snd tree]. by eapply list_sort_with_key.
Qed.

Lemma sort_by_stable_witness :
  rows_with_key 0 (KStr "a") (tree (_sort_by "Name" (scanned mods_ties "")).2)
  = rows_with_key 0 (KStr "a") (tree (scanned mods_ties "")).
Proof.
  apply (sort_by_stable "Name" 0 (scanned mods_ties "") (KStr "a")).
  - vm_compute. reflexivity.
  - vm_compute. reflexivity.
Defined.

Lemma sort_key_text ix r : ix ≠ 2 → sort_key ix r = KStr (lower (column ix r)).
Proof.
  intros H. unfold sort_key.
  by destruct (Nat.eqb_spec ix 2).
Qed.

Lemma sort_by_text_ok col ix st :
  column_indices !! col = Some ix → ix ≠ 2 → (_sort_by col st).1 = None.
Proof.
  intros Hix Hne. unfold _sort_by.
  destruct (tree st) as [|r l] eqn:Htree; [done |]. rewrite Hix.
  destruct (list_sort_Some (sort_key ix) (default false (_sort_dir st !! col))
              false (r :: l)) as [items' ->]; [| done].
  apply Forall_forall. intros r' _. by rewrite sort_key_text.
Qed.

(** X13.  Sorting by Name or by ModID never raises: the rows are permuted into
    the order of the lower-cased text of the column, ascending or
    descending as the remembered direction says. *)
Theorem sort_by_text_column col ix st :
  (col = "Name" ∧ ix = 0) ∨ (col = "ModID" ∧ ix = 1) →
  (_sort_by col st).1 = None
  ∧ tree (_sort_by col st).2 ≡ₚ tree st
  ∧ StronglySorted
      (λ r1 r2,
         if direction col st
         then String.leb (lower (column ix r2)) (lower (column ix r1)) = true
         else String.leb (lower (column ix r1)) (lower (column ix r2)) = true)
      (tree (_sort_by col st).2).
Proof.
  intros Hcol.
  assert (column_indices !! col = Some ix ∧ ix ≠ 2) as [Hix Hne].
  { destruct Hcol as [[-> ->] | [-> ->]]; split; by vm_compute. }
  split_and!; [by apply (sort_by_text_ok col ix) | apply sort_by_perm |].
  - unfold _sort_by. fold (direction col st).
    destruct (tree st) as [|r l] eqn:Htree.
    { cbn [snd]. rewrite Htree. constructor. }
    rewrite Hix.
    destruct (list_sort _ _ _) as [items'|] eqn:Hs; cbn [snd tree].
    + apply list_sort_sorted in Hs.
      eapply (StronglySorted_Forall_impl (λ _, True)); [| | exact Hs].
      * cbn beta. intros r1 r2 _ _. rewrite !sort_key_text by done.
        destruct (direction col st); by rewrite key_le_str.
      * by apply Forall_forall.
    + exfalso.
      destruct (list_sort_Some (sort_key ix) (direction col st) false (r :: l))
        as [items' Hs']; [| congruence].
      apply Forall_forall. intros r' _. by rewrite sort_key_text.
Qed.

Lemma sort_by_text_column_witness :
  (_sort_by "Name" (scanned mods_ties "")).1 = None
  ∧ tree (_sort_by "Name" (scanned mods_ties "")).2
    ≡ₚ tree (scanned mods_ties "")
  ∧ StronglySorted
      (λ r1 r2,
         if direction "Name" (scanned mods_ties "")
         then String.leb (lower (column 0 r2)) (lower (column 0 r1)) = true
         else String.leb (lower (column 0 r1)) (lower (column 0 r2)) = true)
      (tree (_sort_by "Name" (scanned mods_ties "")).2).
Proof.
  apply (sort_by_text_column "Name" 0 (scanned mods_ties "")).
  left. split; reflexivity.
Defined.

Lemma forall_or_exists {A} (p : A -> bool) (l : list A) :
  Forall (λ x, p x = true) l ∨ Exists (λ x, p x = false) l.
Proof.
  induction l as [|x l [IH | IH]].
  - left. constructor.
  - destruct (p x) eqn:Hx; [left | right]; by constructor.
  - right. by constructor.
Qed.

(** X14.  When a column sort raises.  [TypeError] comes up exactly when the
    column is WorkshopID and the view has a workshopid that parses as an
    integer and one that does not; [KeyError] exactly when the view is
    not empty and the column is not one of the three; and whatever is
    raised, the application is left as it was. *)
Theorem sort_by_raises col st :
  ((_sort_by col st).1 = Some TypeError ↔
   col = "WorkshopID"
   ∧ ∃ r1 r2, r1 ∈ tree st ∧ r2 ∈ tree st
              ∧ is_Some (py_int (column 2 r1))
              ∧ py_int (column 2 r2) = None)
  ∧ ((_sort_by col st).1 = Some KeyError ↔
     tree st ≠ [] ∧ column_indices !! col = None)
  ∧ ((_sort_by col st).1 ≠ None → (_sort_by col st).2 = st).
Proof.
  split_and!; [split | split |].
  - intros Hraise.
    assert (tree st ≠ [] ∧ ∃ ix, column_indices !! col = Some ix
            ∧ list_sort (sort_key ix) (direction col st) (tree st) = None)
      as (Hne & ix & Hix & Hs).
    { revert Hraise. unfold _sort_by, direction.
      destruct (tree st) as [|r l]; [done |].
      destruct (column_indices !! col) as [ix|]; [| done].
      destruct (list_sort _ _ _) eqn:Hs; [done |]. eauto. }
    destruct (column_indices_lookup _ _ Hix) as [[-> ->] | [[-> ->] | [-> ->]]].
    + pose proof (sort_by_text_ok _ _ st Hix) as H.
      rewrite H in Hraise by done. done.
    + pose proof (sort_by_text_ok _ _ st Hix) as H.
      rewrite H in Hraise by done. done.
    + split; [done |].
      destruct (forall_or_exists (λ r, negb (is_int (sort_key 2 r)))
                  (tree st)) as [Hall | Hex].
      { destruct (list_sort_Some (sort_key 2) (direction "WorkshopID" st)
                    false (tree st)) as [? ?]; [| congruence].
        eapply Forall_impl; [exact Hall |]. cbn beta. intros r.
        by destruct (is_int (sort_key 2 r)). }
      destruct (forall_or_exists (λ r, is_int (sort_key 2 r)) (tree st))
        as [Hall | Hex'].
      { destruct (list_sort_Some (sort_key 2) (direction "WorkshopID" st)
                    true _ Hall) as [? ?]. congruence. }
      apply Exists_exists in Hex as (r1 & Hr1 & Hk1%negb_false_iff).
      apply Exists_exists in Hex' as (r2 & Hr2 & Hk2).
      exists r1, r2. unfold sort_key in Hk1, Hk2. cbn [Nat.eqb] in Hk1, Hk2.
      split_and!; [done | done | |].
      * destruct (py_int (column 2 r1)); [eauto | done].
      * by destruct (py_int (column 2 r2)).
  - intros (-> & r1 & r2 & H1 & H2 & Hint & Hnone).
    by rewrite (sort_by_workshopid_mixed st r1 r2).
  - unfold _sort_by. destruct (tree st) as [|r l]; [done |].
    destruct (column_indices !! col) as [ix|]; [| done].
    by destruct (list_sort _ _ _).
  - intros [Hne Hcol]. unfold _sort_by.
    destruct (tree st) as [|r l]; [done |]. by rewrite Hcol.
  - apply sort_by_frame.
Qed.

(** X15.  From the second activation on, the activations of a column alternate
    between two states: after two activations on a non-empty view, a
    third one brings back exactly the application the first one left. *)
Theorem sort_by_third col ix st st1 st2 :
  column_indices !! col = Some ix →
  tree st ≠ [] →
  _sort_by col st = (None, st1) →
  _sort_by col st1 = (None, st2) →
  _sort_by col st2 = (None, st1).
Proof.
  intros Hix Hne Hrun1 Hrun2.
  destruct (sort_by_ok _ _ _ _ Hix Hne Hrun1) as (Hs1 & Hm1 & Hq1 & Hd1).
  pose proof (list_sort_perm _ _ _ _ Hs1) as Hp1.
  assert (tree st1 ≠ []) as Hne1.
  { intros Hnil. rewrite Hnil in Hp1. by apply Permutation_nil_r in Hp1. }
  destruct (sort_by_ok _ _ _ _ Hix Hne1 Hrun2) as (Hs2 & Hm2 & Hq2 & Hd2).
  pose proof (list_sort_perm _ _ _ _ Hs2) as Hp2.
  assert (tree st2 ≠ []) as Hne2.
  { intros Hnil. rewrite Hnil in Hp2. by apply Permutation_nil_r in Hp2. }
  assert (direction col st1 = negb (direction col st)) as Hdir1.
  { unfold direction at 1. by rewrite Hd1, lookup_insert_eq. }
  assert (direction col st2 = direction col st) as Hdir2.
  { unfold direction at 1. rewrite Hd2, lookup_insert_eq, Hdir1.
    apply negb_involutive. }
  destruct (list_sort_one_kind _ _ _ _ Hs2) as [b Hb]. rewrite Hp2 in Hb.
  destruct (list_sort_Some (sort_key ix) (direction col st2) b _ Hb)
    as [items3 Hs3].
  rewrite (sort_by_run _ _ _ _ Hix Hne2 Hs3). f_equal.
  assert (items3 = tree st1) as ->.
  { rewrite Hdir2 in Hs3.
    apply (sorted_stable_unique (sort_key ix)
             (λ a b, if direction col st then key_le b a else key_le a b)).
    - intros a c. destruct (direction col st); intros H1 H2;
        by apply key_le_antisym.
    - by apply list_sort_sorted in Hs3.
    - by apply list_sort_sorted in Hs1.
    - intros k.
      rewrite (list_sort_with_key _ _ _ _ _ Hs3).
      by rewrite (list_sort_with_key _ _ _ _ _ Hs2). }
  rewrite Hm2, Hq2, Hdir2, Hd2, Hdir1, Hd1, !insert_insert_eq.
  rewrite <- Hd1. by destruct st1.
Qed.

Lemma sort_by_third_witness :
  _sort_by "Name"
    (_sort_by "Name" (_sort_by "Name" (scanned mods_ties "")).2).2
  = (None, (_sort_by "Name" (scanned mods_ties "")).2).
Proof.
  apply (sort_by_third "Name" 0 (scanned mods_ties "")).
  - vm_compute. reflexivity.
  - vm_compute. discriminate.
  - vm_compute. reflexivity.
  - vm_compute. reflexivity.
Defined.

(** ** Narrowing the search *)

Lemma occurs_trans (a b c : string) : occurs a b → occurs b c → occurs a c.
Proof.
  intros (p1 & q1 & ->) (p2 & q2 & ->). exists (p2 +:+ p1), (q1 +:+ q2).
  by rewrite !app_assoc_s.
Qed.

Lemma occurs_in_empty q : occurs q "" → q = "".
Proof.
  intros ([|c p] & post & H); [| by rewrite app_cons in H].
  rewrite app_nil in H. destruct q; [done | by rewrite app_cons in H].
Qed.

Lemma shown_narrow q q' m :
  occurs q q' → shown q' m = true → shown q m = true.
Proof.
  intros Hq. unfold shown.
  rewrite !orb_true_iff, !negb_true_iff, !nonempty_false, !py_in_occurs.
  intros [[[-> | H] | H] | H].
  - apply occurs_in_empty in Hq as ->. tauto.
  - left. left. right. by eapply occurs_trans.
  - left. right. by eapply occurs_trans.
  - right. by eapply occurs_trans.
Qed.

Lemma filter_sublist {A} (p p' : A -> bool) (l : list A) :
  (∀ x, p' x = true → p x = true) →
  List.filter p' l `sublist_of` List.filter p l.
Proof.
  intros Himp. induction l as [|x l IH]; simpl; [constructor |].
  destruct (p' x) eqn:Hx.
  - rewrite (Himp x Hx). by constructor.
  - destruct (p x); [by constructor | done].
Qed.

(** X11.  When the query of a new search text, the text lower-cased and
    stripped, contains the query of the previous one, the new search
    never brings a row in: the new view is the view of the previous text
    with rows left out. *)
Theorem search_narrowing st text text' :
  occurs (query_of text) (query_of text') →
  tree (_on_search (set_search text' st))
  `sublist_of` tree (_on_search (set_search text st)).
Proof.
  intros Hq.
  cbn [_on_search set_search _apply_filter tree mods search_var].
  rewrite !filter_loop_spec. cbn [app].
  apply (fmap_sublist row_of), filter_sublist.
  intros m. by apply shown_narrow.
Qed.

Lemma search_narrowing_witness :
  tree (_on_search (set_search " 10" (scanned mods_ties "")))
  `sublist_of` tree (_on_search (set_search "0 " (scanned mods_ties ""))).
Proof.
  apply (search_narrowing (scanned mods_ties "") "0 " " 10").
  exists "1", "". vm_compute. reflexivity.
Defined.

(** ** The clipboard *)

Lemma split_no_sep c s : py_in (String c "") s = false → split c s = [s].
Proof.
  induction s as [|x s IH]; [done |].
  rewrite py_in_char. intros [Hx Hs]%orb_false_iff.
  simpl. by rewrite Hx, (IH Hs).
Qed.

Lemma split_app_sep c (a b : string) :
  py_in (String c "") a = false →
  split c (a +:+ String c b) = a :: split c b.
Proof.
  induction a as [|x a IH].
  - intros _. rewrite app_nil. simpl. by rewrite Ascii.eqb_refl.
  - rewrite py_in_char. intros [Hx Ha]%orb_false_iff.
    rewrite app_cons. simpl. by rewrite Hx, (IH Ha).
Qed.

(** Splitting what [join] made gives the parts back, when there is at
    least one and none holds the separator. *)
Lemma split_join c l :
  l ≠ [] → Forall (λ s, py_in (String c "") s = false) l →
  split c (join (String c "") l) = l.
Proof.
  intros Hne Hl. induction Hl as [|x l Hx Hl IH]; [done |].
  destruct l as [|y l]; [by apply split_no_sep |].
  change (join (String c "") (x :: y :: l))
    with (x +:+ String c (join (String c "") (y :: l))).
  rewrite (split_app_sep _ _ _ Hx). f_equal. by apply IH.
Qed.

Lemma copy_line_no_newline r :
  py_in nl (column 0 r) = false → py_in nl (column 1 r) = false →
  py_in nl (column 2 r) = false → py_in nl (copy_line r) = false.
Proof.
  destruct r as [[n m] w]. unfold copy_line, nl. cbn [column].
  intros Hn Hm Hw. rewrite !py_in_char_app, Hn, Hm, Hw. by vm_compute.
Qed.

(** X16.  With a selection whose fields hold no newline, each copy action puts
    on the clipboard a text whose lines are, in the order of the
    selection, the modids, the workshopids, or the full lines of the
    selected rows; the line count is the size of the selection. *)
Theorem copy_round_trip selection :
  selection ≠ [] →
  Forall (λ r, py_in nl (column 0 r) = false
               ∧ py_in nl (column 1 r) = false
               ∧ py_in nl (column 2 r) = false) selection →
  (∃ text, copy_modid selection = Some text
           ∧ split "010" text = map (column 1) selection)
  ∧ (∃ text, copy_workshopid selection = Some text
             ∧ split "010" text = map (column 2) selection)
  ∧ (∃ text, copy_selected selection = Some text
             ∧ split "010" text = map copy_line selection).
Proof.
  intros Hne Hsel.
  assert (∀ g : row → string,
            (∀ r, py_in nl (column 0 r) = false ∧ py_in nl (column 1 r) = false
                  ∧ py_in nl (column 2 r) = false → py_in nl (g r) = false) →
            split "010" (join nl (map g selection)) = map g selection) as H.
  { intros g Hg. apply split_join.
    - by destruct selection.
    - apply Forall_map. eapply Forall_impl; [exact Hsel |]. apply Hg. }
  destruct selection as [|r0 rest]; [done |].
  split_and!; eexists; (split; [reflexivity |]); apply H.
  - tauto.
  - tauto.
  - intros r (H0 & H1 & H2). by apply copy_line_no_newline.
Qed.

Lemma copy_round_trip_witness :
  (∃ text, copy_modid (tree (scanned mods_ties "")) = Some text
           ∧ split "010" text = map (column 1) (tree (scanned mods_ties "")))
  ∧ (∃ text, copy_workshopid (tree (scanned mods_ties "")) = Some text
             ∧ split "010" text
               = map (column 2) (tree (scanned mods_ties "")))
  ∧ (∃ text, copy_selected (tree (scanned mods_ties "")) = Some text
             ∧ split "010" text
               = map copy_line (tree (scanned mods_ties ""))).
Proof.
  apply (copy_round_trip (tree (scanned mods_ties ""))).
  - vm_compute. discriminate.
  - vm_compute. repeat constructor.
Defined.

(** ** The hover highlight *)

Lemma hovered_without tags : hovered (without_hover tags) = false.
Proof.
  unfold hovered, without_hover. induction tags as [|t tags IH]; [done |].
  cbn [List.filter]. destruct (String.eqb t "hover") eqn:E; cbn [negb].
  - exact IH.
  - cbn [existsb]. by rewrite IH, orb_false_r, String.eqb_sym.
Qed.

Lemma without_hover_idem tags :
  without_hover (without_hover tags) = without_hover tags.
Proof.
  unfold without_hover. induction tags as [|t tags IH]; [done |].
  cbn [List.filter]. destruct (negb (String.eqb t "hover")) eqn:Ht; [| done].
  cbn [List.filter]. by rewrite Ht, IH.
Qed.

Lemma without_hover_added tags :
  without_hover (tags ++ ["hover"]) = without_hover tags.
Proof.
  unfold without_hover. rewrite List.filter_app. simpl. apply app_nil_r.
Qed.

Lemma hovered_added tags : hovered (tags ++ ["hover"]) = true.
Proof.
  unfold hovered. rewrite existsb_app. simpl. apply orb_true_r.
Qed.

(** After the first step no item carries the hover tag. *)
Lemma drop_hover_clean h i tags :
  hover_ok h → drop_hover h !! i = Some tags → hovered tags = false.
Proof.
  intros Hok Hi. destruct (hovered tags) eqn:Hh; [| done]. exfalso.
  unfold drop_hover in Hi.
  destruct (_last_hover h) as [last|] eqn:Hlast.
  - destruct (nonempty last) eqn:Hne.
    + destruct (item_tags h !! last) as [tags0|] eqn:Htags0.
      * apply lookup_insert_Some in Hi as [[<- <-] | [Hneq Hi]].
        -- by rewrite hovered_without in Hh.
        -- destruct (Hok _ _ Hi Hh) as [Hl _]. congruence.
      * destruct (Hok _ _ Hi Hh) as [Hl _]. rewrite Hlast in Hl.
        injection Hl as ->. congruence.
    + destruct (Hok _ _ Hi Hh) as [Hl Hi']. rewrite Hlast in Hl.
      injection Hl as ->. by destruct i.
  - destruct (Hok _ _ Hi Hh) as [Hl _]. congruence.
Qed.

Lemma drop_hover_frame h i :
  without_hover <$> (drop_hover h !! i) = without_hover <$> (item_tags h !! i).
Proof.
  unfold drop_hover. destruct (_last_hover h) as [last|]; [| done].
  destruct (nonempty last); [| done].
  destruct (item_tags h !! last) as [tags0|] eqn:Htags0; [| done].
  destruct (decide (last = i)) as [<- | Hne].
  - rewrite lookup_insert_eq, Htags0. simpl. by rewrite without_hover_idem.
  - by rewrite lookup_insert_ne.
Qed.

(** X17.  The hover tag is on one item at most, the one in [_last_hover]: if
    that holds before [_clear_hover] or [_hover_row], it holds after;
    after [_clear_hover] no item is tagged; and after [_hover_row] moved
    to another item of the tree, that item is tagged and recorded. *)
Theorem hover_single h :
  hover_ok h →
  hover_ok (_clear_hover h)
  ∧ (∀ i tags, item_tags (_clear_hover h) !! i = Some tags →
               hovered tags = false)
  ∧ ∀ iid,
      hover_ok (_hover_row iid h).2
      ∧ (iid ≠ "" → is_Some (item_tags h !! iid) →
         _last_hover h ≠ Some iid →
         (_hover_row iid h).1 = None
         ∧ _last_hover (_hover_row iid h).2 = Some iid
         ∧ ∃ tags, item_tags (_hover_row iid h).2 !! iid = Some tags
                   ∧ hovered tags = true).
Proof.
  intros Hok.
  assert (∀ last, hover_ok (HoverView (drop_hover h) last)) as Hclean.
  { intros last i tags Hi Hh. cbn in Hi.
    by rewrite (drop_hover_clean _ _ _ Hok Hi) in Hh. }
  split_and!;
    [apply Hclean
    | intros i tags Hi; by apply (drop_hover_clean h i tags Hok) |].
  intros iid. unfold _hover_row.
  destruct (decide (_last_hover h = Some iid)) as [Heq | Hneq];
    [split; [done | congruence] |].
  destruct (nonempty iid) eqn:Hne.
  - destruct (drop_hover h !! iid) as [tags|] eqn:Htags.
    + pose proof (drop_hover_clean _ _ _ Hok Htags) as Hh.
      unfold hovered in Hh. rewrite Hh. cbn [fst snd]. split.
      * intros i tags' Hi Hh'. cbn in Hi.
        apply lookup_insert_Some in Hi as [[<- <-] | [Hne' Hi]].
        -- split; [done | by destruct iid].
        -- by rewrite (drop_hover_clean _ _ _ Hok Hi) in Hh'.
      * intros _ _ _. split_and!; [done | done |].
        exists (tags ++ ["hover"]). cbn.
        by rewrite lookup_insert_eq, hovered_added.
    + cbn [fst snd]. split; [apply Hclean |].
      intros _ [tags Hi] _. exfalso.
      pose proof (drop_hover_frame h iid) as Hf.
      by rewrite Htags, Hi in Hf.
  - cbn [fst snd]. split; [apply Hclean |].
    intros Hiid. by destruct iid.
Qed.

Lemma hover_sample_ok : hover_ok hover_sample.
Proof.
  intros i tags Hi Hh. unfold hover_sample in Hi. cbn in Hi.
  apply lookup_insert_Some in Hi as [[<- <-] | [_ Hi]]; [done |].
  apply lookup_insert_Some in Hi as [[<- <-] | [_ Hi]]; [done |].
  by rewrite lookup_empty in Hi.
Qed.

Lemma hover_single_witness :
  hover_ok (_clear_hover hover_sample)
  ∧ (∀ i tags, item_tags (_clear_hover hover_sample) !! i = Some tags →
               hovered tags = false)
  ∧ ∀ iid,
      hover_ok (_hover_row iid hover_sample).2
      ∧ (iid ≠ "" → is_Some (item_tags hover_sample !! iid) →
         _last_hover hover_sample ≠ Some iid →
         (_hover_row iid hover_sample).1 = None
         ∧ _last_hover (_hover_row iid hover_sample).2 = Some iid
         ∧ ∃ tags, item_tags (_hover_row iid hover_sample).2 !! iid
                   = Some tags
                   ∧ hovered tags = true).
Proof.
  apply (hover_single hover_sample). apply hover_sample_ok.
Defined.

(** X18.  [_clear_hover] and [_hover_row] touch nothing but the hover tag: no
    item appears or disappears, and the other tags of every item, the
    row colours among them, stay as they are and in their order. *)
Theorem hover_frame h iid i :
  without_hover <$> (item_tags (_clear_hover h) !! i)
  = without_hover <$> (item_tags h !! i)
  ∧ without_hover <$> (item_tags (_hover_row iid h).2 !! i)
    = without_hover <$> (item_tags h !! i).
Proof.
  split; [apply drop_hover_frame |].
  unfold _hover_row.
  destruct (decide (_last_hover h = Some iid)); [done |].
  destruct (nonempty iid); [| apply drop_hover_frame].
  destruct (drop_hover h !! iid) as [tags|] eqn:Htags;
    [| apply drop_hover_frame].
  cbn [snd item_tags]. rewrite <- drop_hover_frame.
  destruct (decide (iid = i)) as [<- | Hne]; [| by rewrite lookup_insert_ne].
  rewrite lookup_insert_eq, Htags. cbn. f_equal.
  destruct (existsb _ tags); [done | apply without_hover_added].
Qed.

(** ** Fatal errors *)

Lemma split_hd_app c (a b : string) :
  py_in (String c "") a = false →
  hd "" (split c (a +:+ b)) = a +:+ hd "" (split c b).
Proof.
  induction a as [|x a IH]; [done |].
  rewrite py_in_char. intros [Hx Ha]%orb_false_iff.
  rewrite !app_cons. cbn [split]. rewrite Hx. specialize (IH Ha).
  pose proof (split_nonnil c (a +:+ b)) as Hne.
  destruct (split c (a +:+ b)) as [|s rest]; [done |].
  cbn [hd] in *. by rewrite IH.
Qed.

(** X19.  The error line of the fatal dialog never holds a newline; for a
    message that is not empty it is the start of the message, up to its
    first newline; and for a callback error it is the heading followed by
    the first line of the traceback, never the fixed text of the empty
    message. *)
Theorem fatal_error_line_spec msg :
  py_in nl (fatal_error_line msg) = false
  ∧ (msg ≠ "" →
     msg = fatal_error_line msg
     ∨ ∃ rest, msg = fatal_error_line msg +:+ nl +:+ rest)
  ∧ fatal_error_line (gui_error_message msg)
    = "GUI Error: " +:+ hd "" (split "010" msg).
Proof.
  unfold fatal_error_line, nl. split_and!.
  - destruct (nonempty msg); [| by vm_compute].
    destruct (split_hd_spec "010" msg) as [[Hin ->] | (v & _ & Hin)]; done.
  - intros Hne. destruct msg as [|c msg]; [done |]. cbn [nonempty].
    destruct (split_hd_spec "010" (String c msg)) as [[_ ->] | (v & Hv & _)];
      [by left |].
    right. by exists v.
  - unfold gui_error_message.
    rewrite split_hd_app by (by vm_compute). by rewrite app_cons.
Qed.
